(** * thriftpool: a sequential model of the connection pool of pool.go

    The pool ([ThriftPool]), its connections ([ThriftConn]) and the buffered
    channel that serves as free-queue are embedded as records; every method
    of pool.go becomes a function in a state monad over a [World] that holds
    the pool, the heap of connection objects and the trace of calls made to
    the thrift transport.  Panics (send on a closed channel, close of a closed
    channel, nil dereference) are an outcome of the monad, so that the
    [defer]/[recover] of [put] can be written as the source has it.

    Each method is executed atomically: the model covers the runs in which
    no other goroutine interleaves with the call.  Clock readings and the
    answers of the transport are inputs of the calls. *)

From stdpp Require Import base list strings pretty.
From Stdlib Require Import ZArith Lia.

Local Open Scope Z_scope.

(** ** Machine integers *)

(** Go's [int32] and [int64] arithmetic wraps around in two's complement. *)
Definition wrap (bits : Z) (z : Z) : Z :=
  (z + 2 ^ (bits - 1)) mod 2 ^ bits - 2 ^ (bits - 1).

Definition wrap32 : Z → Z := wrap 32.
Definition wrap64 : Z → Z := wrap 64.

Definition add32 (a b : Z) : Z := wrap32 (a + b).
Definition mul32 (a b : Z) : Z := wrap32 (a * b).
Definition sub64 (a b : Z) : Z := wrap64 (a - b).

Definition int32_ok (z : Z) : Prop := - 2 ^ 31 ≤ z < 2 ^ 31.
Definition int64_ok (z : Z) : Prop := - 2 ^ 63 ≤ z < 2 ^ 63.

(** ** Time *)

(** A [time.Time] is kept as nanoseconds since the Unix epoch; [Unix] is the
    method [Time.Unix], the whole seconds since the epoch (rounded down). *)
Definition Time := Z.
Definition Unix (t : Time) : Z := t `div` 1000000000.

(** ** Errors *)

(** The two errors pool.go builds with [errors.New (fmt.Sprintf ...)] keep
    the arguments of the format; [ErrTransport] is an error handed over by
    the thrift transport. *)
Inductive error : Type :=
  | ErrPoolEmpty (curUsed newUsed init max : Z)
  | ErrPutFailed (used init idle : Z)
  | ErrTransport (msg : string).

(** [err.Error()].  The format of [get] prints [MaxSize] with the verb [%s],
    which fmt renders for an [int32] as [%!s(int32=N)]. *)
Definition Error (e : error) : string :=
  match e with
  | ErrPoolEmpty curUsed newUsed init max =>
      "thriftpool empty, used:" +:+ pretty curUsed +:+ "/" +:+ pretty newUsed
      +:+ ", init:" +:+ pretty init
      +:+ ", max:%!s(int32=" +:+ pretty max +:+ ")"
  | ErrPutFailed u init i =>
      "use:" +:+ pretty u +:+ ", init:" +:+ pretty init
      +:+ ", idle:" +:+ pretty i
  | ErrTransport msg => msg
  end.

(** ** Connections and the heap *)

(** A [*thrift.TSocket] is an opaque handle of the transport. *)
Definition TSocket := nat.

Record ThriftConn : Type := mkConn {
  conn_Endpoint : string;
  conn_closed : bool;
  client : TSocket;
  usedTime : Time
}.

Definition with_usedTime (v : Time) (c : ThriftConn) : ThriftConn :=
  mkConn (conn_Endpoint c) (conn_closed c) (client c) v.
Definition with_conn_closed (v : bool) (c : ThriftConn) : ThriftConn :=
  mkConn (conn_Endpoint c) v (client c) (usedTime c).

(** A [*ThriftConn] is [None] for [nil] and an address of the heap
    otherwise. *)
Abbreviation loc := nat.
Definition ptr := option loc.

(** ** The free-queue: a buffered channel of [*ThriftConn] *)

Record chan : Type := mkChan {
  chan_cap : Z;
  chan_buf : list ptr;
  chan_closed : bool
}.

(** [make(chan *ThriftConn, n)] panics for a negative [n]. *)
Definition make_chan (n : Z) : option chan :=
  if n <? 0 then None else Some (mkChan n [] false).

(** ** The pool *)

Record ThriftPool : Type := mkPool {
  Endpoint : string;
  DialTimeout : Z;
  IdleTimeout : Z;
  MaxSize : Z;
  InitSize : Z;
  used : Z;
  idle : Z;
  assessTime : Z;
  closed : Z;
  clients : chan
}.

(** Calls that reach the thrift transport. *)
Inductive Event : Type :=
  | EvNewTSocketTimeout (endpoint : string) (seconds : Z)
  | EvNewTSocket (endpoint : string)
  | EvOpen (s : TSocket)
  | EvSocketClose (s : TSocket).

Record World : Type := mkWorld {
  pool : ThriftPool;
  heap : list ThriftConn;
  trace : list Event
}.

(** ** The monad: state passing with panics *)

Inductive Outcome (A : Type) : Type :=
  | Ret (a : A)
  | Panic.
Arguments Ret {A} a.
Arguments Panic {A}.

Definition M (A : Type) : Type := World → World * Outcome A.

Definition ret {A} (a : A) : M A := λ w, (w, Ret a).
Definition panic {A} : M A := λ w, (w, Panic).
Definition bind {A B} (m : M A) (k : A → M B) : M B :=
  λ w, match m w with
       | (w', Ret a) => k a w'
       | (w', Panic) => (w', Panic)
       end.

Notation "'let*' x ':=' m 'in' k" := (bind m (λ x, k))
  (at level 10, x name, m at level 100, k at level 200, only parsing).
Notation "'run' m 'in' k" := (bind m (λ _, k))
  (at level 10, m at level 100, k at level 200, only parsing).

(** [defer func() { if err := recover(); err != nil { handler } }()] around a
    body: the state reached at the panic is the one the handler starts in. *)
Definition try_recover {A} (body handler : M A) : M A :=
  λ w, match body w with
       | (w', Ret r) => (w', Ret r)
       | (w', Panic) => handler w'
       end.

Definition get_pool : M ThriftPool := λ w, (w, Ret (pool w)).
Definition set_pool (f : ThriftPool → ThriftPool) : M unit :=
  λ w, (mkWorld (f (pool w)) (heap w) (trace w), Ret tt).
Definition emit (e : Event) : M unit :=
  λ w, (mkWorld (pool w) (heap w) (trace w ++ [e]), Ret tt).

(** Dereference of a [*ThriftConn]: [nil] panics. *)
Definition load (p : ptr) : M ThriftConn :=
  λ w, match p with
       | Some l => match heap w !! l with
                   | Some c => (w, Ret c)
                   | None => (w, Panic)
                   end
       | None => (w, Panic)
       end.

Definition store (p : ptr) (f : ThriftConn → ThriftConn) : M unit :=
  λ w, match p with
       | Some l => match heap w !! l with
                   | Some c =>
                       (mkWorld (pool w) (<[l := f c]> (heap w)) (trace w),
                        Ret tt)
                   | None => (w, Panic)
                   end
       | None => (w, Panic)
       end.

(** [new(ThriftConn)] followed by the assignment of its fields. *)
Definition alloc (c : ThriftConn) : M ptr :=
  λ w, (mkWorld (pool w) (heap w ++ [c]) (trace w),
        Ret (Some (length (heap w)))).

(** ** Field updates of the pool *)

Definition with_used (v : Z) (t : ThriftPool) : ThriftPool :=
  mkPool (Endpoint t) (DialTimeout t) (IdleTimeout t) (MaxSize t)
    (InitSize t) v (idle t) (assessTime t) (closed t) (clients t).
Definition with_idle (v : Z) (t : ThriftPool) : ThriftPool :=
  mkPool (Endpoint t) (DialTimeout t) (IdleTimeout t) (MaxSize t)
    (InitSize t) (used t) v (assessTime t) (closed t) (clients t).
Definition with_assessTime (v : Z) (t : ThriftPool) : ThriftPool :=
  mkPool (Endpoint t) (DialTimeout t) (IdleTimeout t) (MaxSize t)
    (InitSize t) (used t) (idle t) v (closed t) (clients t).
Definition with_closed (v : Z) (t : ThriftPool) : ThriftPool :=
  mkPool (Endpoint t) (DialTimeout t) (IdleTimeout t) (MaxSize t)
    (InitSize t) (used t) (idle t) (assessTime t) v (clients t).
Definition with_clients (c : chan) (t : ThriftPool) : ThriftPool :=
  mkPool (Endpoint t) (DialTimeout t) (IdleTimeout t) (MaxSize t)
    (InitSize t) (used t) (idle t) (assessTime t) (closed t) c.
Definition with_IdleTimeout (v : Z) (t : ThriftPool) : ThriftPool :=
  mkPool (Endpoint t) (DialTimeout t) v (MaxSize t)
    (InitSize t) (used t) (idle t) (assessTime t) (closed t) (clients t).
Definition with_DialTimeout (v : Z) (t : ThriftPool) : ThriftPool :=
  mkPool (Endpoint t) v (IdleTimeout t) (MaxSize t)
    (InitSize t) (used t) (idle t) (assessTime t) (closed t) (clients t).

(** ** The counters: [atomic.AddInt32] returns the new value *)

Definition addUsed : M Z :=
  let* t := get_pool in
  let v := add32 (used t) 1 in
  run set_pool (with_used v) in ret v.
Definition subUsed : M Z :=
  let* t := get_pool in
  let v := add32 (used t) (-1) in
  run set_pool (with_used v) in ret v.
Definition addIdle : M Z :=
  let* t := get_pool in
  let v := add32 (idle t) 1 in
  run set_pool (with_idle v) in ret v.
Definition subIdle : M Z :=
  let* t := get_pool in
  let v := add32 (idle t) (-1) in
  run set_pool (with_idle v) in ret v.

Definition GetIdle : M Z := let* t := get_pool in ret (idle t).
Definition GetUsed : M Z := let* t := get_pool in ret (used t).
Definition GetInitSize : M Z := let* t := get_pool in ret (InitSize t).
Definition GetMaxSize : M Z := let* t := get_pool in ret (MaxSize t).
Definition GetAssessTime : M Z := let* t := get_pool in ret (assessTime t).
Definition GetEndpoint : M string := let* t := get_pool in ret (Endpoint t).

Definition SetIdleTimeout (timeout : Z) : M unit :=
  set_pool (with_IdleTimeout (if timeout <? 1 then 1 else timeout)).
Definition SetDialTimeout (timeout : Z) : M unit :=
  set_pool (with_DialTimeout (if timeout <? 1 then 1 else timeout)).

(** ** Channel operations, as [select] with a [default] uses them *)

(** [case conn := <-t.clients] against [default]: a buffered value is
    received first; a closed and drained channel yields the zero value
    [nil]; an open and empty channel leaves the [default] branch. *)
Definition try_recv : M (option ptr) :=
  let* t := get_pool in
  let c := clients t in
  match chan_buf c with
  | p :: rest =>
      run set_pool (with_clients (mkChan (chan_cap c) rest (chan_closed c)))
      in ret (Some p)
  | [] => if chan_closed c then ret (Some None) else ret None
  end.

(** [case t.clients <- conn] against [default]: sending on a closed channel
    panics; otherwise the value is appended when the buffer has room
    ([true]), and the [default] branch is taken when it is full ([false]). *)
Definition try_send (p : ptr) : M bool :=
  let* t := get_pool in
  let c := clients t in
  if chan_closed c then panic
  else if Z.of_nat (length (chan_buf c)) <? chan_cap c then
    run set_pool (with_clients (mkChan (chan_cap c) (chan_buf c ++ [p]) false))
    in ret true
  else ret false.

(** [close(t.clients)]: closing a closed channel panics. *)
Definition close_chan : M unit :=
  let* t := get_pool in
  let c := clients t in
  if chan_closed c then panic
  else set_pool (with_clients (mkChan (chan_cap c) (chan_buf c) true)).

(** ** Inputs of the calls *)

(** What the transport answers when [get] dials: [thrift.NewTSocket...] may
    fail; otherwise it hands out a socket, whose [Open] may fail. *)
Inductive DialResult : Type :=
  | NewSocketFails (e : error)
  | OpenFails (s : TSocket) (e : error)
  | Dialed (s : TSocket).

(** The clock readings of one [get]: [time.Now()] at entry and, when a
    connection is created, at its creation. *)
Record GetEnv : Type := mkGetEnv {
  get_now : Time;
  get_dial : DialResult;
  get_born : Time
}.

(** The clock readings of one [put]: [time.Now()] at entry and the later one
    of [UpdateUsedTime] (or of [time.Now().Unix()] in the Reclaimer's
    mode). *)
Record PutEnv : Type := mkPutEnv {
  put_now : Time;
  put_clock : Time
}.

Section Pool.

(** What [TSocket.Close] returns for a socket. *)
Variable socket_close : TSocket → option error.

(** ** Methods of [*ThriftConn] *)

Definition ThriftConn_GetEndpoint (t : ptr) : M string :=
  let* c := load t in ret (conn_Endpoint c).

Definition GetClient (t : ptr) : M TSocket :=
  let* c := load t in ret (client c).

Definition GetUsedTime (t : ptr) : M Z :=
  let* c := load t in ret (Unix (usedTime c)).

Definition UpdateUsedTime (t : ptr) (now : Time) : M Z :=
  run store t (with_usedTime now) in
  ret (Unix now).

Definition ThriftConn_Close (t : ptr) : M (option error) :=
  let* c := load t in
  if conn_closed c then ret None
  else
    run store t (with_conn_closed true) in
    run emit (EvSocketClose (client c)) in
    ret (socket_close (client c)).

Definition IsClose (t : ptr) : M bool :=
  let* c := load t in ret (conn_closed c).

(** ** [get] and [Get] *)

Definition get (doNotNew : bool) (e : GetEnv) : M (ptr * option error) :=
  run set_pool (with_assessTime (Unix (get_now e))) in
  let* curUsed := addUsed in
  let* r := try_recv in
  match r with
  | Some conn =>
      run subIdle in
      ret (conn, None)
  | None =>
      if doNotNew then ret (None, None)
      else
        let* t := get_pool in
        if curUsed >? MaxSize t then
          let* newUsed := subUsed in
          ret (None, Some (ErrPoolEmpty curUsed newUsed (InitSize t) (MaxSize t)))
        else
          run emit (if DialTimeout t >? 0
                    then EvNewTSocketTimeout (Endpoint t) (DialTimeout t)
                    else EvNewTSocket (Endpoint t)) in
          match get_dial e with
          | NewSocketFails err => ret (None, Some err)
          | OpenFails s err =>
              run emit (EvOpen s) in
              ret (None, Some err)
          | Dialed s =>
              run emit (EvOpen s) in
              let* conn := alloc (mkConn (Endpoint t) false s (get_born e)) in
              ret (conn, None)
          end
  end.

Definition Get (e : GetEnv) : M (ptr * option error) := get false e.

(** ** [put] and [Put] *)

(** The [select] that ends [put]. *)
Definition put_select (conn : ptr) (used : Z) : M (option error) :=
  let* sent := try_send conn in
  if sent then ret None
  else
    run ThriftConn_Close conn in
    run subIdle in
    let* t := get_pool in
    let* i := GetIdle in
    ret (Some (ErrPutFailed used (InitSize t) i)).

(** The two evictions of [put]: close, [subIdle], [return nil]. *)
Definition put_evict (conn : ptr) : M (option error) :=
  run ThriftConn_Close conn in
  run subIdle in
  ret None.

(** The body of [put], below the [defer]. *)
Definition put_body (conn : ptr) (doNotNew : bool) (e : PutEnv)
    : M (option error) :=
  let* used := subUsed in
  let* t := get_pool in
  if closed t =? 1 then
    let* isClose := IsClose conn in
    if negb isClose then
      run ThriftConn_Close conn in ret None
    else ret None
  else
    let* isClose := IsClose conn in
    if isClose then ret None
    else
      let* idle := addIdle in
      let* usedTime := GetUsedTime conn in
      let* nowTime := (if negb doNotNew
                       then UpdateUsedTime conn (put_clock e)
                       else ret (Unix (put_clock e))) in
      if idle >? InitSize t then
        if nowTime >? usedTime then
          let iTime := sub64 nowTime usedTime in
          if iTime >? IdleTimeout t then put_evict conn
          else if idle >? MaxSize t then put_evict conn
          else put_select conn used
        else put_select conn used
      else put_select conn used.

(** The deferred function of [put]: a panic of the body is recovered, the
    connection closed and [idle] decremented; [put] then returns the zero
    value of its result, [nil].  A panic of the deferred function itself is
    not recovered. *)
Definition put_recover (conn : ptr) : M (option error) :=
  run ThriftConn_Close conn in
  run subIdle in
  ret None.

Definition put (conn : ptr) (doNotNew : bool) (e : PutEnv)
    : M (option error) :=
  run set_pool (with_assessTime (Unix (put_now e))) in
  try_recover (put_body conn doNotNew e) (put_recover conn).

Definition Put (conn : ptr) (e : PutEnv) : M (option error) :=
  put conn false e.

(** ** [Close] of the pool *)

(** [for conn := range t.clients] on the closed channel: the buffered
    connections are received one by one, the loop ends when the buffer is
    empty. *)
Fixpoint drain (q : list ptr) : M unit :=
  match q with
  | [] => ret tt
  | conn :: rest =>
      run set_pool (λ t, with_clients
                           (mkChan (chan_cap (clients t)) rest
                                   (chan_closed (clients t))) t) in
      match conn with
      | None => drain rest
      | Some _ => run ThriftConn_Close conn in drain rest
      end
  end.

Definition ThriftPool_Close : M unit :=
  let* t := get_pool in
  (* atomic.CompareAndSwapInt32(&t.closed, 0, 1) *)
  if negb (closed t =? 0) then ret tt
  else
    run set_pool (with_closed 1) in
    run close_chan in
    let* t := get_pool in
    drain (chan_buf (clients t)).

(** ** [releaseIdleConn], the Reclaimer *)

(** The inner loop [for i := 0; i < int(idleSize); i++]: [n] iterations are
    left, the [i]-th takes its clock readings from [env i].  A probe that
    returns [nil] ends the loop; the error of [put] is printed and
    dropped. *)
Fixpoint reclaim_loop (n i : nat) (env : nat → GetEnv * PutEnv) : M unit :=
  match n with
  | O => ret tt
  | S n' =>
      let* r := get true (fst (env i)) in
      match fst r with
      | None => ret tt
      | Some _ =>
          let* err := put (fst r) true (snd (env i)) in
          reclaim_loop n' (S i) env
      end
  end.

(** One round of the outer loop, after which the goroutine sleeps again;
    [false] when the round finds the pool closed and the goroutine ends. *)
Definition releaseIdleConn_round (env : nat → GetEnv * PutEnv) : M bool :=
  let* t := get_pool in
  if closed t =? 1 then ret false
  else
    let* initSize := GetInitSize in
    let* idleSize := GetIdle in
    let* usedSize := GetUsed in
    if (idleSize >? initSize) && (usedSize <? idleSize) then
      run reclaim_loop (Z.to_nat idleSize) 0 env in ret true
    else ret true.

End Pool.

(** ** [NewThriftPool] *)

(** The goroutine [releaseIdleConn] that the constructor starts runs beside
    the caller and is no part of the value returned. *)
Definition NewThriftPool (endpoint : string)
    (dialTimeout idleTimeout maxSize initSize : Z) : Outcome ThriftPool :=
  let DialTimeout' := if dialTimeout <? 1 then 5 else dialTimeout in
  let IdleTimeout' := if idleTimeout <? 1 then 10 else idleTimeout in
  let MaxSize' :=
    if maxSize <? 1 then 100
    else if maxSize <=? mul32 initSize 2 then mul32 initSize 2
    else maxSize in
  let InitSize' := if initSize <? 1 then 1 else initSize in
  match make_chan MaxSize' with
  | Some c =>
      Ret (mkPool endpoint DialTimeout' IdleTimeout' MaxSize' InitSize'
             0 0 0 0 c)
  | None => Panic
  end.

(** ** [Close] as src/unnamed/part_000 has it *)

(** This version of the file differs from pool.go in [Close]: after
    [close(t.clients)] it drains the free-queue with a [for] around a
    [select] whose [default] branch returns.  The loop has no bound in the
    source, so it is run on fuel: [None] says that the loop is still running
    when the fuel is used up. *)
Module Part000.
Section Pool.

Variable socket_close : TSocket → option error.

Fixpoint drain_loop (fuel : nat) (w : World) : option (World * Outcome unit) :=
  match fuel with
  | O => None
  | S fuel' =>
      match try_recv w with
      | (w1, Ret (Some conn)) =>
          match conn with
          | None => drain_loop fuel' w1
          | Some _ =>
              match ThriftConn_Close socket_close conn w1 with
              | (w2, Ret _) => drain_loop fuel' w2
              | (w2, Panic) => Some (w2, Panic)
              end
          end
      | (w1, Ret None) => Some (w1, Ret tt)
      | (w1, Panic) => Some (w1, Panic)
      end
  end.

Definition Close (fuel : nat) (w : World) : option (World * Outcome unit) :=
  (* atomic.CompareAndSwapInt32(&t.closed, 0, 1) *)
  if negb (closed (pool w) =? 0) then Some (w, Ret tt)
  else
    match (run set_pool (with_closed 1) in close_chan) w with
    | (w1, Ret _) => drain_loop fuel w1
    | (w1, Panic) => Some (w1, Panic)
    end.

End Pool.
End Part000.

(** * Notions of the statements *)

(** ** The worlds along the paths of [put]

    For a connection [c] stored at [l]. *)

(** After the entry of [put]: [assessTime] stored, [used] decremented. *)
Definition put_entered (e : PutEnv) (w : World) : World :=
  mkWorld (with_used (add32 (used (pool w)) (-1))
             (with_assessTime (Unix (put_now e)) (pool w)))
    (heap w) (trace w).

(** The connection as [put] holds it after the clock was read: refreshed by
    [UpdateUsedTime], or left alone in the Reclaimer's mode. *)
Definition stamped (doNotNew : bool) (e : PutEnv) (c : ThriftConn)
    : ThriftConn :=
  if doNotNew then c else with_usedTime (put_clock e) c.

(** After [addIdle] and the reading of the clock. *)
Definition put_counted (l : loc) (c : ThriftConn) (doNotNew : bool)
    (e : PutEnv) (w : World) : World :=
  mkWorld (with_idle (add32 (idle (pool w)) 1) (pool (put_entered e w)))
    (<[l := stamped doNotNew e c]> (heap w)) (trace w).

(** [conn.Close()] on the open connection [c] at [l]. *)
Definition conn_closed_in (l : loc) (c : ThriftConn) (w : World) : World :=
  mkWorld (pool w) (<[l := with_conn_closed true c]> (heap w))
    (trace w ++ [EvSocketClose (client c)]).

(** [conn.Close()] followed by [t.subIdle()]. *)
Definition discarded (l : loc) (c : ThriftConn) (w : World) : World :=
  mkWorld (with_idle (add32 (idle (pool w)) (-1)) (pool w))
    (<[l := with_conn_closed true c]> (heap w))
    (trace w ++ [EvSocketClose (client c)]).

(** The connection appended to the free-queue. *)
Definition enqueued (l : loc) (w : World) : World :=
  mkWorld (with_clients
             (mkChan (chan_cap (clients (pool w)))
                (chan_buf (clients (pool w)) ++ [Some l]) false) (pool w))
    (heap w) (trace w).

(** The eviction test of [put], on the values the code compares. *)
Definition evicts (t : ThriftPool) (idle nowTime usedTime : Z) : bool :=
  (idle >? InitSize t) && (nowTime >? usedTime)
  && ((sub64 nowTime usedTime >? IdleTimeout t) || (idle >? MaxSize t)).

(** ** Well-formed states *)

(** The [int32] fields of a pool hold [int32] values. *)
Definition int32_fields (t : ThriftPool) : Prop :=
  int32_ok (DialTimeout t) ∧ int32_ok (IdleTimeout t) ∧ int32_ok (MaxSize t)
  ∧ int32_ok (InitSize t) ∧ int32_ok (used t) ∧ int32_ok (idle t)
  ∧ int32_ok (closed t).

(** A queued pointer is [nil] or the address of a connection. *)
Definition valid_ptr (w : World) (p : ptr) : Prop :=
  match p with
  | Some l => is_Some (heap w !! l)
  | None => True
  end.

(** ** Sequences of calls *)

(** The calls a program can make on a pool and on its connections, and the
    rounds of the Reclaimer; [CallGet true] and [CallPut _ true] are the
    calls the Reclaimer makes. *)
Inductive Call : Type :=
  | CallGet (doNotNew : bool) (e : GetEnv)
  | CallPut (conn : ptr) (doNotNew : bool) (e : PutEnv)
  | CallPoolClose
  | CallReclaim (env : nat → GetEnv * PutEnv)
  | CallConnClose (conn : ptr)
  | CallUpdateUsedTime (conn : ptr) (now : Time)
  | CallSetIdleTimeout (timeout : Z)
  | CallSetDialTimeout (timeout : Z).

Definition call (sc : TSocket → option error) (k : Call) (w : World)
    : World :=
  match k with
  | CallGet doNotNew e => fst (get doNotNew e w)
  | CallPut conn doNotNew e => fst (put sc conn doNotNew e w)
  | CallPoolClose => fst (ThriftPool_Close sc w)
  | CallReclaim env => fst (releaseIdleConn_round sc env w)
  | CallConnClose conn => fst (ThriftConn_Close sc conn w)
  | CallUpdateUsedTime conn now => fst (UpdateUsedTime conn now w)
  | CallSetIdleTimeout timeout => fst (SetIdleTimeout timeout w)
  | CallSetDialTimeout timeout => fst (SetDialTimeout timeout w)
  end.

Definition calls (sc : TSocket → option error) (ks : list Call) (w : World)
    : World :=
  foldl (λ w k, call sc k w) w ks.

(** [n] probes [get(true)] of the Reclaimer in a row. *)
Fixpoint probes (n : nat) (e : GetEnv) (w : World) : World :=
  match n with
  | O => w
  | S n' => probes n' e (fst (get true e w))
  end.

(** [w'] comes after [w]: every connection of [w] is still there, and the
    closed ones are still closed. *)
Definition closed_kept (w w' : World) : Prop :=
  ∀ (l : nat) c, heap w !! l = Some c →
    ∃ c', heap w' !! l = Some c'
          ∧ (conn_closed c = true → conn_closed c' = true).

(** A computation never reopens a connection. *)
Definition never_reopens {A} (m : M A) : Prop :=
  ∀ w, closed_kept w (fst (m w)).

(** ** Two sentences of the specification, as they are worded *)

(** C5 as the specification words it: not stale and [idle] above [MaxSize]
    would be enough for the eviction, whatever the seconds of release and of
    last use. *)
Definition over_capacity_evicts_in_any_second : Prop :=
  ∀ sc (l : nat) c doNotNew e w,
    closed (pool w) ≠ 1 →
    heap w !! l = Some c →
    conn_closed c = false →
    int32_fields (pool w) →
    InitSize (pool w) < add32 (idle (pool w)) 1 →
    int64_ok (Unix (put_clock e) - Unix (usedTime c)) →
    Unix (put_clock e) - Unix (usedTime c) ≤ IdleTimeout (pool w) →
    MaxSize (pool w) < add32 (idle (pool w)) 1 →
    ∃ w',
      put sc (Some l) doNotNew e w = (w', Ret None)
      ∧ heap w' !! l = Some (with_conn_closed true (stamped doNotNew e c))
      ∧ idle (pool w') = idle (pool w).

(** C6 as the specification words it: the connection just released is the
    one the next [Get] returns. *)
Definition Get_returns_the_released_conn : Prop :=
  ∀ sc (l : nat) c ep eg w w',
    closed (pool w) ≠ 1 →
    heap w !! l = Some c →
    conn_closed c = false →
    Put sc (Some l) ep w = (w', Ret None) →
    (∃ c', heap w' !! l = Some c' ∧ conn_closed c' = false) →
    ∃ w'', Get eg w' = (w'', Ret (Some l, None)) ∧ trace w'' = trace w'.

(** ** Concrete worlds *)

(** A transport whose sockets close without error. *)
Definition quiet : TSocket → option error := λ _, None.

(** A pool as [NewThriftPool "127.0.0.1:9898" 3 5 10 1] makes it, before any
    call. *)
Definition fresh_pool : ThriftPool :=
  mkPool "127.0.0.1:9898" 3 5 10 1 0 0 0 0 (mkChan 10 [] false).

Definition fresh_world : World := mkWorld fresh_pool [] [].

(** One connection lent by the fresh pool. *)
Definition single_world : World :=
  mkWorld
    (mkPool "127.0.0.1:9898" 3 5 10 1 1 0 1700000000 0 (mkChan 10 [] false))
    [mkConn "127.0.0.1:9898" false 10%nat 1700000000500000000]
    [EvNewTSocketTimeout "127.0.0.1:9898" 3; EvOpen 10%nat].

(** The run of thrift_pool_test.go: two connections are dialled and then
    released, the first before the second.  [leased_world] is the world
    between the two releases. *)
Definition leased_world : World :=
  mkWorld
    (mkPool "127.0.0.1:9898" 3 5 10 1 1 1 1700000001 0
       (mkChan 10 [Some 0%nat] false))
    [mkConn "127.0.0.1:9898" false 10%nat 1700000001000000000;
     mkConn "127.0.0.1:9898" false 11%nat 1700000000500000000]
    [EvNewTSocketTimeout "127.0.0.1:9898" 3; EvOpen 10%nat;
     EvNewTSocketTimeout "127.0.0.1:9898" 3; EvOpen 11%nat].

(** [MaxSize = 2], both connections lent, nothing queued. *)
Definition lent_out_world : World :=
  mkWorld
    (mkPool "127.0.0.1:9898" 3 5 2 1 2 0 1700000000 0 (mkChan 2 [] false))
    [mkConn "127.0.0.1:9898" false 10%nat 1700000000100000000;
     mkConn "127.0.0.1:9898" false 11%nat 1700000000200000000]
    [EvNewTSocketTimeout "127.0.0.1:9898" 3; EvOpen 10%nat;
     EvNewTSocketTimeout "127.0.0.1:9898" 3; EvOpen 11%nat].

(** The pool of [lent_out_world] after [Close]. *)
Definition shut_world : World :=
  mkWorld
    (mkPool "127.0.0.1:9898" 3 5 2 1 2 0 1700000000 1 (mkChan 2 [] true))
    (heap lent_out_world) (trace lent_out_world).

(** A pool with [MaxSize = 2] and [InitSize = 1] whose free-queue is full,
    and a third connection, last used in second 1700000000. *)
Definition full_pool : ThriftPool :=
  mkPool "127.0.0.1:9898" 3 5 2 1 1 2 1700000000 0
    (mkChan 2 [Some 0%nat; Some 1%nat] false).

Definition full_world : World :=
  mkWorld full_pool
    [mkConn "127.0.0.1:9898" false 10%nat 1699999990000000000;
     mkConn "127.0.0.1:9898" false 11%nat 1699999991000000000;
     mkConn "127.0.0.1:9898" false 12%nat 1700000000100000000]
    [].

(** ** Pointers and the invariants of the pool *)

(** The connection a [*ThriftConn] points to; [None] for [nil] (and for an
    address outside the heap, which Go never produces). *)
Definition deref (w : World) (p : ptr) : option ThriftConn :=
  match p with
  | Some l => heap w !! l
  | None => None
  end.

(** A pointer that may sit in the free-queue: not [nil], and the address of
    a connection. *)
Definition queued_conn (w : World) (p : ptr) : Prop :=
  match p with
  | Some l => is_Some (heap w !! l)
  | None => False
  end.

Definition queue_valid (w : World) : Prop :=
  Forall (queued_conn w) (chan_buf (clients (pool w))).

(** Every connection carries the endpoint of the pool. *)
Definition endpoints_ok (w : World) : Prop :=
  ∀ (l : nat) c, heap w !! l = Some c → conn_Endpoint c = Endpoint (pool w).

(** [idle] counts the free-queue: the queue is open, [idle] is its length,
    the length is within the capacity, and the capacity is an [int32]. *)
Definition queue_counted (w : World) : Prop :=
  chan_closed (clients (pool w)) = false
  ∧ idle (pool w) = Z.of_nat (length (chan_buf (clients (pool w))))
  ∧ Z.of_nat (length (chan_buf (clients (pool w)))) ≤ chan_cap (clients (pool w))
  ∧ chan_cap (clients (pool w)) < 2 ^ 31.

(** The pool after [Close]: flag set, free-queue closed and empty. *)
Definition shut (w : World) : Prop :=
  closed (pool w) = 1
  ∧ chan_closed (clients (pool w)) = true
  ∧ chan_buf (clients (pool w)) = [].

(** What no call changes: the endpoint, the two sizes and the capacity of
    the free-queue; and the timeouts stay at 1 or above once they are. *)
Definition config_kept (w w' : World) : Prop :=
  Endpoint (pool w') = Endpoint (pool w)
  ∧ MaxSize (pool w') = MaxSize (pool w)
  ∧ InitSize (pool w') = InitSize (pool w)
  ∧ chan_cap (clients (pool w')) = chan_cap (clients (pool w))
  ∧ (1 ≤ DialTimeout (pool w) → 1 ≤ DialTimeout (pool w'))
  ∧ (1 ≤ IdleTimeout (pool w) → 1 ≤ IdleTimeout (pool w')).

(** The calls of [TSocket.Close] on the socket [s] in a trace, and the
    closed connections of a heap that hold [s]. *)
Definition is_close_of (s : TSocket) (ev : Event) : bool :=
  match ev with
  | EvSocketClose s' => Nat.eqb s' s
  | _ => false
  end.

Definition holds_closed (s : TSocket) (c : ThriftConn) : bool :=
  conn_closed c && Nat.eqb (client c) s.

Definition socket_closes (s : TSocket) (tr : list Event) : nat :=
  length (List.filter (is_close_of s) tr).

Definition closed_conns (s : TSocket) (h : list ThriftConn) : nat :=
  length (List.filter (holds_closed s) h).

(** From [w] to [w'] the socket [s] was closed as often as connections that
    hold it became closed. *)
Definition closes_match (s : TSocket) (w w' : World) : Prop :=
  (socket_closes s (trace w') + closed_conns s (heap w) =
   socket_closes s (trace w) + closed_conns s (heap w'))%nat.

(** The dials in a trace: the sockets asked of the transport, with and
    without a timeout. *)
Definition is_dial (ev : Event) : bool :=
  match ev with
  | EvNewTSocketTimeout _ _ | EvNewTSocket _ | EvOpen _ => true
  | EvSocketClose _ => false
  end.

Definition is_untimed_dial (ev : Event) : bool :=
  match ev with
  | EvNewTSocket _ => true
  | _ => false
  end.

(** From [w] to [w'] nothing was dialled and no connection was created. *)
Definition nothing_dialled (w w' : World) : Prop :=
  List.filter is_dial (trace w') = List.filter is_dial (trace w)
  ∧ length (heap w') = length (heap w).

(** A relation on worlds that a computation keeps from its start to its
    end, panic or not. *)
Definition respects {A} (R : World → World → Prop) (m : M A) : Prop :=
  ∀ w, R w (fst (m w)).

(** The relation is kept by the operations the methods are made of. *)
Definition operations_respect (R : World → World → Prop) : Prop :=
  (∀ v, respects R (set_pool (with_used v)))
  ∧ (∀ v, respects R (set_pool (with_idle v)))
  ∧ (∀ v, respects R (set_pool (with_assessTime v)))
  ∧ respects R (set_pool (with_closed 1))
  ∧ (∀ rest, respects R (set_pool (λ t, with_clients
                  (mkChan (chan_cap (clients t)) rest
                     (chan_closed (clients t))) t)))
  ∧ respects R try_recv
  ∧ (∀ p, respects R (try_send p))
  ∧ respects R close_chan
  ∧ (∀ sc p, respects R (ThriftConn_Close sc p))
  ∧ (∀ p now, respects R (UpdateUsedTime p now)).

(** The relation is kept by the methods the Reclaimer and the callers use,
    [Get] and the [Close] of the pool apart. *)
Definition methods_respect (R : World → World → Prop) : Prop :=
  (∀ e, respects R (get true e))
  ∧ (∀ sc p doNotNew e, respects R (put sc p doNotNew e))
  ∧ (∀ sc p, respects R (ThriftConn_Close sc p))
  ∧ (∀ p now, respects R (UpdateUsedTime p now))
  ∧ (∀ timeout, respects R (SetIdleTimeout timeout))
  ∧ (∀ timeout, respects R (SetDialTimeout timeout)).

(** A call that is neither [Get] nor the [Close] of the pool. *)
Definition inner_call (k : Call) : Prop :=
  match k with
  | CallGet doNotNew _ => doNotNew = true
  | CallPoolClose => False
  | _ => True
  end.

(** The socket [get] asks of the transport: with the timeout when
    [DialTimeout] is positive, without it otherwise. *)
Definition dial_event (t : ThriftPool) : Event :=
  if DialTimeout t >? 0
  then EvNewTSocketTimeout (Endpoint t) (DialTimeout t)
  else EvNewTSocket (Endpoint t).

(** The world of a [get] that has counted itself in and found nothing
    queued. *)
Definition get_counted (e : GetEnv) (w : World) : World :=
  mkWorld (with_used (add32 (used (pool w)) 1)
             (with_assessTime (Unix (get_now e)) (pool w)))
    (heap w) (trace w).

(** A timeout that is at least 1 stays so, and no socket is asked for
    without a timeout. *)
Definition timed_kept (w w' : World) : Prop :=
  1 ≤ DialTimeout (pool w) →
  1 ≤ DialTimeout (pool w')
  ∧ List.filter is_untimed_dial (trace w')
    = List.filter is_untimed_dial (trace w).

(** A property of worlds that holds at the end when it held at the start. *)
Definition keeps (P : World → Prop) (w w' : World) : Prop := P w → P w'.

(** * Properties *)

(** ** Machine arithmetic *)

Lemma wrap32_id z : int32_ok z → wrap32 z = z.
Proof.
  unfold int32_ok, wrap32, wrap. intros Hz.
  change (2 ^ (32 - 1)) with 2147483648 in *.
  change (2 ^ 32) with 4294967296.
  change (2 ^ 31) with 2147483648 in *.
  rewrite Z.mod_small; lia.
Qed.

Lemma wrap32_ok z : int32_ok (wrap32 z).
Proof.
  unfold int32_ok, wrap32, wrap.
  change (2 ^ (32 - 1)) with 2147483648.
  change (2 ^ 32) with 4294967296.
  change (2 ^ 31) with 2147483648.
  pose proof (Z.mod_pos_bound (z + 2147483648) 4294967296). lia.
Qed.

Lemma wrap32_add_l a b : wrap32 (wrap32 a + b) = wrap32 (a + b).
Proof.
  unfold wrap32, wrap.
  change (2 ^ (32 - 1)) with 2147483648.
  change (2 ^ 32) with 4294967296.
  f_equal.
  replace ((a + 2147483648) `mod` 4294967296 - 2147483648 + b + 2147483648)
    with ((a + 2147483648) `mod` 4294967296 + b) by lia.
  rewrite Zplus_mod_idemp_l. f_equal. lia.
Qed.

(** An increment followed by a decrement gives back the counter, also when
    the increment wraps around. *)
Lemma add32_inc_dec u : int32_ok u → add32 (add32 u 1) (-1) = u.
Proof.
  intros Hu. unfold add32. rewrite wrap32_add_l.
  replace (u + 1 + -1) with u by lia. by apply wrap32_id.
Qed.

Lemma add32_dec_inc u : int32_ok u → add32 (add32 u (-1)) 1 = u.
Proof.
  intros Hu. unfold add32. rewrite wrap32_add_l.
  replace (u + -1 + 1) with u by lia. by apply wrap32_id.
Qed.

(** When the incremented counter exceeds an [int32], the increment did not
    wrap. *)
Lemma add32_inc_gt u m :
  int32_ok u → int32_ok m → m < add32 u 1 → add32 u 1 = u + 1.
Proof.
  intros Hu Hm Hlt. unfold add32 in *.
  destruct (decide (u + 1 < 2 ^ 31)) as [Hs|Hs].
  - apply wrap32_id. unfold int32_ok in *. lia.
  - exfalso. assert (u = 2 ^ 31 - 1) as -> by (unfold int32_ok in *; lia).
    revert Hlt. unfold int32_ok in Hm.
    change (wrap32 (2 ^ 31 - 1 + 1)) with (- 2 ^ 31). lia.
Qed.

Lemma wrap64_id z : int64_ok z → wrap64 z = z.
Proof.
  unfold int64_ok, wrap64, wrap. intros Hz.
  change (2 ^ (64 - 1)) with 9223372036854775808 in *.
  change (2 ^ 64) with 18446744073709551616.
  change (2 ^ 63) with 9223372036854775808 in *.
  rewrite Z.mod_small; lia.
Qed.

(** ** Evaluation *)

(** Unfolds the methods down to the primitive operations on the world;
    [unfold_upto_select] leaves the final [select] of [put] folded. *)
Ltac unfold_upto_select :=
  cbv [Get get Put put put_body put_evict put_recover try_recover
       ThriftPool_Close ThriftConn_Close IsClose GetUsedTime UpdateUsedTime
       ThriftConn_GetEndpoint GetClient
       addUsed subUsed addIdle subIdle GetIdle GetUsed
       try_recv try_send close_chan load store alloc emit set_pool get_pool
       bind ret panic
       with_used with_idle with_assessTime with_closed with_clients
       with_usedTime with_conn_closed
       conn_Endpoint conn_closed client usedTime
       pool heap trace
       Endpoint DialTimeout IdleTimeout MaxSize InitSize used idle assessTime
       closed clients chan_cap chan_buf chan_closed].

Ltac unfold_methods := unfold put_select; unfold_upto_select.

(** Runs a method on an explicit world: the loads and the tests whose
    results the context knows are resolved as they come up. *)
Ltac use_facts :=
  repeat match goal with
         | H : _ !! _ = Some _ |- _ => rewrite H
         | H : (_ >? _) = _ |- _ => rewrite H
         | H : (_ <? _) = _ |- _ => rewrite H
         | H : (_ =? _) = _ |- _ => rewrite H
         end.

Ltac exec_by unfolding :=
  repeat (progress (unfolding; simpl; use_facts;
                    rewrite ?list_lookup_insert_eq, ?list_insert_insert_eq
                      by (by eapply lookup_lt_Some)));
  unfolding.

Ltac exec := exec_by unfold_methods.
Ltac exec_upto_select := exec_by unfold_upto_select.

(** Turns the comparisons of the hypotheses into the booleans the code
    tests. *)
Lemma gtb_true a b : b < a → (a >? b) = true.
Proof. intros. apply Z.gtb_lt. lia. Qed.

Lemma gtb_false a b : a ≤ b → (a >? b) = false.
Proof. intros. rewrite Z.gtb_ltb. apply Z.ltb_ge. lia. Qed.

(** ** The pool a constructor call yields *)

Lemma NewThriftPool_MaxSize_pos endpoint dialTimeout idleTimeout maxSize
    initSize p :
  NewThriftPool endpoint dialTimeout idleTimeout maxSize initSize = Ret p →
  1 ≤ MaxSize p ∧ 1 ≤ InitSize p ∧ 1 ≤ IdleTimeout p ∧ 1 ≤ DialTimeout p.
Proof.
  unfold NewThriftPool, make_chan. intros H.
  destruct (Z.ltb_spec dialTimeout 1), (Z.ltb_spec idleTimeout 1),
    (Z.ltb_spec maxSize 1), (Z.ltb_spec initSize 1),
    (Z.leb_spec maxSize (mul32 initSize 2));
    case_match; simplify_eq; simpl; lia.
Qed.

(** C7.  [NewThriftPool] always returns a pool (the allocation of the
    free-queue does not panic), and the pool has: DialTimeout 5 for an
    argument below 1, else the argument; IdleTimeout 10 for an argument below
    1, else the argument; MaxSize 100 for [maxSize < 1], else [initSize*2]
    when [maxSize <= initSize*2], else [maxSize] (the product is Go's [int32]
    product [mul32]); InitSize 1 for [initSize < 1], else the argument; used,
    idle and closed 0; an empty, open free-queue of capacity MaxSize. *)
Theorem NewThriftPool_defaults endpoint dialTimeout idleTimeout maxSize
    initSize :
  ∃ p, NewThriftPool endpoint dialTimeout idleTimeout maxSize initSize = Ret p
    ∧ Endpoint p = endpoint
    ∧ DialTimeout p = (if decide (dialTimeout < 1) then 5 else dialTimeout)
    ∧ IdleTimeout p = (if decide (idleTimeout < 1) then 10 else idleTimeout)
    ∧ MaxSize p = (if decide (maxSize < 1) then 100
                   else if decide (maxSize ≤ mul32 initSize 2)
                        then mul32 initSize 2
                        else maxSize)
    ∧ InitSize p = (if decide (initSize < 1) then 1 else initSize)
    ∧ used p = 0 ∧ idle p = 0 ∧ closed p = 0
    ∧ chan_cap (clients p) = MaxSize p
    ∧ chan_buf (clients p) = []
    ∧ chan_closed (clients p) = false.
Proof.
  unfold NewThriftPool, make_chan.
  destruct (Z.ltb_spec dialTimeout 1), (Z.ltb_spec idleTimeout 1),
    (Z.ltb_spec maxSize 1), (Z.ltb_spec initSize 1),
    (Z.leb_spec maxSize (mul32 initSize 2));
    repeat case_decide; try lia;
    match goal with
    | |- context [?m <? 0] => destruct (Z.ltb_spec m 0); [lia|]
    end;
    (eexists; split; [reflexivity|]); simpl; repeat split; lia.
Qed.

(** Without overflow of [initSize*2] the product is the mathematical one. *)
Lemma NewThriftPool_MaxSize_exact endpoint dialTimeout idleTimeout maxSize
    initSize p :
  - 2 ^ 30 ≤ initSize < 2 ^ 30 →
  NewThriftPool endpoint dialTimeout idleTimeout maxSize initSize = Ret p →
  MaxSize p = (if decide (maxSize < 1) then 100
               else if decide (maxSize ≤ 2 * initSize) then 2 * initSize
                    else maxSize).
Proof.
  intros Hi H.
  assert (mul32 initSize 2 = 2 * initSize) as Hmul.
  { unfold mul32. rewrite wrap32_id; [lia|]. unfold int32_ok.
    change (2 ^ 31) with 2147483648. change (2 ^ 30) with 1073741824 in Hi.
    lia. }
  revert H. unfold NewThriftPool, make_chan. rewrite Hmul.
  destruct (Z.ltb_spec maxSize 1), (Z.leb_spec maxSize (2 * initSize));
    repeat case_decide; try lia;
    case_match; intros; simplify_eq; done.
Qed.

(** ** [get] on an empty free-queue *)

(** The [select] of [get] takes its [default] branch exactly when the
    free-queue is open and holds nothing. *)
Lemma try_recv_default w :
  try_recv w = (w, Ret None) ↔
  chan_buf (clients (pool w)) = [] ∧ chan_closed (clients (pool w)) = false.
Proof.
  destruct w as [[ep dt idt ms ins u i ast cl [cap buf clo]] h tr].
  unfold_methods. split.
  - destruct buf; [|discriminate]. destruct clo; [discriminate|done].
  - by intros [-> ->].
Qed.

(** In the non-creating mode an empty free-queue makes [get] return
    [nil, nil]; nothing but [assessTime] and [used] changes, and [used]
    keeps the increment. *)
Lemma get_doNotNew_empty e w :
  chan_buf (clients (pool w)) = [] →
  chan_closed (clients (pool w)) = false →
  get true e w =
    (mkWorld (with_used (add32 (used (pool w)) 1)
                (with_assessTime (Unix (get_now e)) (pool w)))
       (heap w) (trace w),
     Ret (None, None)).
Proof.
  destruct w as [[ep dt idt ms ins u i ast cl [cap buf clo]] h tr].
  simpl. intros -> ->. reflexivity.
Qed.

Lemma fresh_pool_constructed :
  NewThriftPool "127.0.0.1:9898" 3 5 10 1 = Ret fresh_pool.
Proof. reflexivity. Qed.

(** C1, at the failing input.  On the pool just constructed the probe
    [get(true)] of the Reclaimer finds the free-queue empty and returns
    [nil, nil], and [used], 0 before the call, is 1 after it: the increment of
    [addUsed] is not taken back. *)
Theorem get_doNotNew_empty_keeps_increment :
  let e := mkGetEnv 1700000000000000000 (Dialed 0%nat) 1700000000000000000 in
  snd (get true e fresh_world) = Ret (None, None)
  ∧ used (pool fresh_world) = 0
  ∧ used (pool (fst (get true e fresh_world))) = 1.
Proof. vm_compute. done. Qed.

(** Every empty probe leaks one more: [n] probes in a row raise [used] by
    [n]. *)
Lemma probes_leak n e w :
  chan_buf (clients (pool w)) = [] →
  chan_closed (clients (pool w)) = false →
  int32_ok (used (pool w)) →
  used (pool w) + Z.of_nat n < 2 ^ 31 →
  used (pool (probes n e w)) = used (pool w) + Z.of_nat n.
Proof.
  revert w. induction n as [|n IH]; intros w Hb Hc Hok Hlt; simpl probes.
  - lia.
  - assert (add32 (used (pool w)) 1 = used (pool w) + 1) as Hadd.
    { unfold add32. apply wrap32_id. unfold int32_ok in *. lia. }
    rewrite get_doNotNew_empty by done. cbn [fst].
    rewrite IH; cbn [pool with_used with_assessTime used clients];
      rewrite ?Hadd; try done; unfold int32_ok in *; lia.
Qed.

(** The leak reaches the callers: ten empty probes on the fresh pool, which
    has [MaxSize = 10] and has lent nothing, and [Get] is refused. *)
Lemma probes_exhaust_fresh_pool :
  let e := mkGetEnv 1700000000000000000 (Dialed 0%nat) 1700000000000000000 in
  snd (Get e (probes 10 e fresh_world))
  = Ret (None, Some (ErrPoolEmpty 11 10 1 10)).
Proof. vm_compute. done. Qed.

(** ** [Get] beyond [MaxSize] *)

(** C2.  When [Get] finds the free-queue empty and the incremented [used]
    exceeds [MaxSize], it returns no connection and the error that carries
    the incremented count, the restored count, [InitSize] and [MaxSize];
    [used] is again what it was before the call, and nothing but
    [assessTime] has changed (in particular nothing was dialled). *)
Theorem Get_pool_exhausted e w :
  int32_ok (used (pool w)) →
  chan_buf (clients (pool w)) = [] →
  chan_closed (clients (pool w)) = false →
  MaxSize (pool w) < add32 (used (pool w)) 1 →
  Get e w =
    (mkWorld (with_assessTime (Unix (get_now e)) (pool w)) (heap w) (trace w),
     Ret (None,
          Some (ErrPoolEmpty (add32 (used (pool w)) 1) (used (pool w))
                  (InitSize (pool w)) (MaxSize (pool w))))).
Proof.
  destruct w as [[ep dt idt ms ins u i ast cl [cap buf clo]] h tr].
  simpl. intros Hu -> -> Hgt.
  unfold_methods. rewrite (gtb_true _ _ Hgt).
  by rewrite (add32_inc_dec _ Hu).
Qed.

(** ** [put], path by path *)

(** [put] on a closed pool. *)
Lemma put_closed_pool sc l c doNotNew e w :
  closed (pool w) = 1 →
  heap w !! l = Some c →
  put sc (Some l) doNotNew e w =
    (if conn_closed c then put_entered e w
     else conn_closed_in l c (put_entered e w), Ret None).
Proof.
  destruct w as [[ep dt idt ms ins u i ast cl [cap buf clo]] h tr].
  simpl. intros -> Hl. unfold put_entered, conn_closed_in.
  destruct c as [cep [] s ut]; exec; done.
Qed.

(** [put] of a connection the caller has closed. *)
Lemma put_closed_conn sc l c doNotNew e w :
  closed (pool w) ≠ 1 →
  heap w !! l = Some c →
  conn_closed c = true →
  put sc (Some l) doNotNew e w = (put_entered e w, Ret None).
Proof.
  destruct w as [[ep dt idt ms ins u i ast cl [cap buf clo]] h tr].
  simpl. intros Hcl Hl Hc. unfold put_entered.
  apply Z.eqb_neq in Hcl.
  destruct c as [cep ccl s ut]; simpl in *; subst ccl.
  exec. done.
Qed.

(** What the final [select] of [put] does, with the [recover] around it. *)
Lemma put_select_recover sc l c used' w :
  heap w !! l = Some c →
  conn_closed c = false →
  try_recover (put_select sc (Some l) used') (put_recover sc (Some l)) w =
    if chan_closed (clients (pool w)) then (discarded l c w, Ret None)
    else if Z.of_nat (length (chan_buf (clients (pool w))))
            <? chan_cap (clients (pool w))
         then (enqueued l w, Ret None)
         else (discarded l c w,
               Ret (Some (ErrPutFailed used' (InitSize (pool w))
                            (add32 (idle (pool w)) (-1))))).
Proof.
  destruct w as [[ep dt idt ms ins u i ast cl [cap buf clo]] h tr].
  simpl. intros Hl Hc. unfold discarded, enqueued.
  destruct c as [cep ccl s ut]; simpl in *; subst ccl.
  destruct clo; [by exec|].
  destruct (Z.of_nat (length buf) <? cap) eqn:Hroom; exec; done.
Qed.

(** [put] of an open connection on an open pool: after the bookkeeping the
    connection is either evicted or offered to the free-queue. *)
Lemma put_open sc l c doNotNew e w :
  closed (pool w) ≠ 1 →
  heap w !! l = Some c →
  conn_closed c = false →
  put sc (Some l) doNotNew e w =
    let w1 := put_counted l c doNotNew e w in
    let c1 := stamped doNotNew e c in
    if evicts (pool w) (add32 (idle (pool w)) 1)
         (Unix (put_clock e)) (Unix (usedTime c))
    then (discarded l c1 w1, Ret None)
    else try_recover (put_select sc (Some l) (add32 (used (pool w)) (-1)))
           (put_recover sc (Some l)) w1.
Proof.
  destruct w as [[ep dt idt ms ins u i ast cl [cap buf clo]] h tr].
  simpl. intros Hcl Hl Hc.
  apply Z.eqb_neq in Hcl.
  destruct c as [cep ccl s ut]; simpl in *; subst ccl.
  unfold put_counted, put_entered, discarded, stamped, evicts.
  destruct doNotNew; cbn [heap]; [rewrite (list_insert_id _ _ _ Hl)|];
    destruct (add32 i 1 >? ins) eqn:E1;
    destruct (Unix (put_clock e) >? Unix ut) eqn:E2;
    destruct (sub64 (Unix (put_clock e)) (Unix ut) >? idt) eqn:E3;
    destruct (add32 i 1 >? ms) eqn:E4;
    exec_upto_select; reflexivity.
Qed.

(** The connection [put] holds is at [l] in the world it has counted. *)
Lemma put_counted_lookup l c doNotNew e w :
  heap w !! l = Some c →
  heap (put_counted l c doNotNew e w) !! l = Some (stamped doNotNew e c).
Proof.
  intros Hl. unfold put_counted. cbn [heap].
  apply list_lookup_insert_eq. by eapply lookup_lt_Some.
Qed.

Lemma stamped_closed doNotNew e c :
  conn_closed (stamped doNotNew e c) = conn_closed c.
Proof. by destruct doNotNew. Qed.

Lemma stamped_client doNotNew e c : client (stamped doNotNew e c) = client c.
Proof. by destruct doNotNew. Qed.

(** ** [Put] after [Close] *)

(** C3.  When the closed flag of the pool is set, [Put] of a connection
    returns [nil] (it does not panic); the connection is closed afterwards,
    its socket having been closed by this call if it was still open and left
    alone otherwise; the free-queue and [idle] are what they were. *)
Theorem Put_after_Close sc l c e w :
  closed (pool w) = 1 →
  heap w !! l = Some c →
  ∃ w' c',
    Put sc (Some l) e w = (w', Ret None)
    ∧ heap w' !! l = Some c' ∧ conn_closed c' = true
    ∧ trace w' = (if conn_closed c then trace w
                  else trace w ++ [EvSocketClose (client c)])
    ∧ clients (pool w') = clients (pool w)
    ∧ idle (pool w') = idle (pool w).
Proof.
  intros Hcl Hl. unfold Put. rewrite (put_closed_pool _ _ c) by done.
  destruct (conn_closed c) eqn:Hc.
  - exists (put_entered e w), c. by repeat split.
  - exists (conn_closed_in l c (put_entered e w)), (with_conn_closed true c).
    repeat split; try done. cbn [conn_closed_in heap put_entered].
    apply list_lookup_insert_eq. by eapply lookup_lt_Some.
Qed.

(** The race of [put] with [Close]: the flag was read before [Close] set
    it and the free-queue is closed when [put] sends.  The panic of the send
    is recovered: the connection is closed, [idle] is taken back, and [put]
    returns [nil]. *)
Lemma put_on_closed_queue sc l c doNotNew e w :
  closed (pool w) ≠ 1 →
  heap w !! l = Some c →
  conn_closed c = false →
  chan_closed (clients (pool w)) = true →
  put sc (Some l) doNotNew e w =
    (discarded l (stamped doNotNew e c) (put_counted l c doNotNew e w),
     Ret None).
Proof.
  intros Hcl Hl Hc Hq. rewrite (put_open _ _ c) by done. cbv zeta.
  destruct (evicts _ _ _ _); [done|].
  rewrite (put_select_recover _ _ (stamped doNotNew e c))
    by (by rewrite ?stamped_closed; try apply put_counted_lookup).
  cbn [put_counted put_entered pool with_idle with_used with_assessTime
       clients]. by rewrite Hq.
Qed.

(** ** The eviction policy of [put] *)

(** The difference of Unix seconds the code takes is below the time that
    really went by: a connection evicted for staleness has been unused for
    more than [timeout] seconds. *)
Lemma Unix_elapsed_sound (now last : Time) timeout :
  timeout < Unix now - Unix last → timeout * 1000000000 < now - last.
Proof.
  unfold Unix. intros H.
  pose proof (Z.div_mod now 1000000000 ltac:(lia)).
  pose proof (Z.div_mod last 1000000000 ltac:(lia)).
  pose proof (Z.mod_pos_bound now 1000000000 ltac:(lia)).
  pose proof (Z.mod_pos_bound last 1000000000 ltac:(lia)).
  lia.
Qed.

Section Release.

Variable sc : TSocket → option error.
Variables (l : nat) (c : ThriftConn) (doNotNew : bool) (e : PutEnv).
Variable w : World.

(** An open connection is released to an open pool ... *)
Hypothesis pool_open : closed (pool w) ≠ 1.
Hypothesis conn_at : heap w !! l = Some c.
Hypothesis conn_open : conn_closed c = false.
Hypothesis fields_ok : int32_fields (pool w).

(** ... and [idle], once incremented, exceeds [InitSize]. *)
Hypothesis above_init : InitSize (pool w) < add32 (idle (pool w)) 1.

Let nowTime := Unix (put_clock e).
Let lastUsed := Unix (usedTime c).

Lemma idle_incremented : add32 (idle (pool w)) 1 = idle (pool w) + 1.
Proof.
  destruct fields_ok as (_ & _ & _ & Hi & _ & Hidle & _).
  by apply (add32_inc_gt _ (InitSize (pool w))).
Qed.

Lemma evicted_world :
  ∀ w', w' = discarded l (stamped doNotNew e c) (put_counted l c doNotNew e w) →
  heap w' !! l = Some (with_conn_closed true (stamped doNotNew e c))
  ∧ trace w' = trace w ++ [EvSocketClose (client c)]
  ∧ clients (pool w') = clients (pool w)
  ∧ idle (pool w') = idle (pool w)
  ∧ idle (pool w') < add32 (idle (pool w)) 1.
Proof.
  intros w' ->. pose proof idle_incremented as Hinc.
  destruct fields_ok as (_ & _ & _ & _ & _ & Hidle & _).
  cbn [discarded put_counted put_entered heap trace pool clients idle
       with_idle with_used with_assessTime].
  rewrite list_insert_insert_eq, stamped_client.
  rewrite (add32_inc_dec _ Hidle). repeat split; try lia.
  apply list_lookup_insert_eq. by eapply lookup_lt_Some.
Qed.

(** The eviction test, decided by the hypotheses of the three cases. *)
Lemma evicts_stale :
  0 ≤ IdleTimeout (pool w) →
  int64_ok (nowTime - lastUsed) →
  IdleTimeout (pool w) < nowTime - lastUsed →
  evicts (pool w) (add32 (idle (pool w)) 1) nowTime lastUsed = true.
Proof.
  intros Hpos Hok Hstale. unfold evicts, sub64. rewrite (wrap64_id _ Hok).
  rewrite (gtb_true _ _ above_init), (gtb_true nowTime lastUsed) by lia.
  by rewrite (gtb_true _ _ Hstale).
Qed.

Lemma evicts_over_capacity :
  int64_ok (nowTime - lastUsed) →
  lastUsed < nowTime →
  nowTime - lastUsed ≤ IdleTimeout (pool w) →
  MaxSize (pool w) < add32 (idle (pool w)) 1 →
  evicts (pool w) (add32 (idle (pool w)) 1) nowTime lastUsed = true.
Proof.
  intros Hok Hlater Hfresh Hover. unfold evicts, sub64.
  rewrite (wrap64_id _ Hok).
  rewrite (gtb_true _ _ above_init), (gtb_true nowTime lastUsed) by lia.
  by rewrite (gtb_false _ _ Hfresh), (gtb_true _ _ Hover).
Qed.

Lemma evicts_same_second :
  nowTime ≤ lastUsed →
  evicts (pool w) (add32 (idle (pool w)) 1) nowTime lastUsed = false.
Proof.
  intros Hsame. unfold evicts.
  by rewrite (gtb_true _ _ above_init), (gtb_false nowTime lastUsed) by lia.
Qed.


(** C5, amended.  The connection is not stale, but the Unix second of the
    release is later than the one of its last use, and [idle], once
    incremented, exceeds [MaxSize]: the connection is closed, [idle] loses
    the increment, and [put] returns [nil]. *)
Theorem put_evicts_over_capacity :
  int64_ok (nowTime - lastUsed) →
  lastUsed < nowTime →
  nowTime - lastUsed ≤ IdleTimeout (pool w) →
  MaxSize (pool w) < add32 (idle (pool w)) 1 →
  ∃ w',
    put sc (Some l) doNotNew e w = (w', Ret None)
    ∧ heap w' !! l = Some (with_conn_closed true (stamped doNotNew e c))
    ∧ trace w' = trace w ++ [EvSocketClose (client c)]
    ∧ clients (pool w') = clients (pool w)
    ∧ idle (pool w') = idle (pool w)
    ∧ idle (pool w') < add32 (idle (pool w)) 1.
Proof.
  intros Hok Hlater Hfresh Hover. eexists. split; [|by apply evicted_world].
  rewrite (put_open _ _ c) by done. cbv zeta. fold nowTime lastUsed.
  by rewrite evicts_over_capacity.
Qed.

(** C10.  The Unix second of the release is not later than the one of the
    connection's last use: whatever [IdleTimeout] and [MaxSize] are, [put]
    goes from its bookkeeping straight to the [select] that offers the
    connection to the free-queue. *)
Theorem put_same_second_skips_eviction :
  nowTime ≤ lastUsed →
  put sc (Some l) doNotNew e w =
    try_recover (put_select sc (Some l) (add32 (used (pool w)) (-1)))
      (put_recover sc (Some l)) (put_counted l c doNotNew e w).
Proof.
  intros Hsame. rewrite (put_open _ _ c) by done. cbv zeta.
  fold nowTime lastUsed. by rewrite evicts_same_second.
Qed.

(** In that case a free-queue with room takes the connection, however long
    it has been unused and however many connections are idle. *)
Lemma put_same_second_enqueues :
  nowTime ≤ lastUsed →
  chan_closed (clients (pool w)) = false →
  Z.of_nat (length (chan_buf (clients (pool w)))) < chan_cap (clients (pool w)) →
  put sc (Some l) doNotNew e w =
    (enqueued l (put_counted l c doNotNew e w), Ret None).
Proof.
  intros Hsame Hq Hroom. rewrite (put_open _ _ c) by done. cbv zeta.
  fold nowTime lastUsed. rewrite evicts_same_second by done.
  rewrite (put_select_recover _ _ (stamped doNotNew e c))
    by (by rewrite ?stamped_closed; try apply put_counted_lookup).
  cbn [put_counted put_entered pool with_idle with_used with_assessTime
       clients]. rewrite Hq.
  apply Z.ltb_lt in Hroom. by rewrite Hroom.
Qed.

End Release.

(** [IdleTimeout] is at least 1 on every pool the interface builds:
    [NewThriftPool] sets it so, and [SetIdleTimeout] keeps it so. *)
Lemma SetIdleTimeout_pos timeout w :
  1 ≤ IdleTimeout (pool (fst (SetIdleTimeout timeout w))).
Proof.
  unfold SetIdleTimeout, set_pool. cbn [fst pool with_IdleTimeout IdleTimeout].
  destruct (Z.ltb_spec timeout 1); lia.
Qed.

(** *** The over-capacity eviction without the guard on the seconds *)

(** Released in the second it was dialled in, the third connection skips the
    eviction and meets the full free-queue: [put] fails. *)
Lemma put_full_same_second :
  snd (put quiet (Some 2%nat) false
         (mkPutEnv 1700000000800000000 1700000000900000000) full_world)
  = Ret (Some (ErrPutFailed 0 1 2)).
Proof. vm_compute. done. Qed.

Lemma over_capacity_evicts_in_any_second_fails :
  ¬ over_capacity_evicts_in_any_second.
Proof.
  intros Hspec.
  destruct (Hspec quiet 2%nat
              (mkConn "127.0.0.1:9898" false 12%nat 1700000000100000000)
              false (mkPutEnv 1700000000800000000 1700000000900000000)
              full_world) as (w' & Hput & _).
  - vm_compute. done.
  - done.
  - done.
  - unfold int32_fields, int32_ok. vm_compute. intuition discriminate.
  - vm_compute. done.
  - unfold int64_ok. vm_compute. intuition discriminate.
  - vm_compute. discriminate.
  - vm_compute. done.
  - pose proof put_full_same_second as Hfail. rewrite Hput in Hfail.
    discriminate.
Qed.

(** ** [Get] after [Put] *)

(** [get] on a free-queue that holds something: the connection at the head
    is handed out, whatever the mode, and nothing is dialled. *)
Lemma get_from_queue doNotNew e w p rest :
  chan_buf (clients (pool w)) = p :: rest →
  get doNotNew e w =
    (mkWorld
       (with_idle (add32 (idle (pool w)) (-1))
          (with_clients
             (mkChan (chan_cap (clients (pool w))) rest
                (chan_closed (clients (pool w))))
             (with_used (add32 (used (pool w)) 1)
                (with_assessTime (Unix (get_now e)) (pool w)))))
       (heap w) (trace w),
     Ret (p, None)).
Proof.
  destruct w as [[ep dt idt ms ins u i ast cl [cap buf clo]] h tr].
  simpl. intros ->. reflexivity.
Qed.

(** A [put] that returns [nil] and leaves the connection open has appended
    it to the free-queue. *)
Lemma put_success_enqueued sc l c doNotNew e w w' :
  closed (pool w) ≠ 1 →
  heap w !! l = Some c →
  conn_closed c = false →
  put sc (Some l) doNotNew e w = (w', Ret None) →
  (∃ c', heap w' !! l = Some c' ∧ conn_closed c' = false) →
  w' = enqueued l (put_counted l c doNotNew e w).
Proof.
  intros Hcl Hl Hc Hput (c' & Hl' & Hc').
  assert (∀ w1, heap (discarded l (stamped doNotNew e c) w1) !! l = Some c' →
                heap w1 !! l = Some (stamped doNotNew e c) → False)
    as Hdiscarded.
  { intros w1 Hd Hw1. cbn [discarded heap] in Hd.
    rewrite list_lookup_insert_eq in Hd by (by eapply lookup_lt_Some).
    by simplify_eq. }
  rewrite (put_open _ _ c) in Hput by done. cbv zeta in Hput.
  pose proof (put_counted_lookup l c doNotNew e w Hl) as Hl1.
  destruct (evicts _ _ _ _).
  { simplify_eq. exfalso. eauto. }
  rewrite (put_select_recover _ _ (stamped doNotNew e c)) in Hput
    by (by rewrite ?stamped_closed).
  destruct (chan_closed _).
  { simplify_eq. exfalso. eauto. }
  destruct (_ <? _); by simplify_eq.
Qed.

Lemma leased_world_reached :
  let now := 1700000000500000000 in
  let g1 := Get (mkGetEnv now (Dialed 10%nat) now) fresh_world in
  let g2 := Get (mkGetEnv now (Dialed 11%nat) now) (fst g1) in
  let p1 := Put quiet (Some 0%nat) (mkPutEnv 1700000001000000000
                                               1700000001000000000) (fst g2) in
  snd g1 = Ret (Some 0%nat, None) ∧ snd g2 = Ret (Some 1%nat, None)
  ∧ p1 = (leased_world, Ret None).
Proof. vm_compute. done. Qed.

(** The second release succeeds, and the [Get] that follows returns the
    first connection, which has been waiting in the free-queue. *)
Lemma Get_after_second_Put :
  let ep := mkPutEnv 1700000001000000000 1700000001000000000 in
  let eg := mkGetEnv 1700000001000000000 (Dialed 12%nat) 1700000001000000000 in
  let w' := fst (Put quiet (Some 1%nat) ep leased_world) in
  snd (Put quiet (Some 1%nat) ep leased_world) = Ret None
  ∧ heap w' !! 1%nat
    = Some (mkConn "127.0.0.1:9898" false 11%nat 1700000001000000000)
  ∧ snd (Get eg w') = Ret (Some 0%nat, None).
Proof. vm_compute. done. Qed.

Lemma Get_returns_the_released_conn_fails : ¬ Get_returns_the_released_conn.
Proof.
  intros Hspec.
  pose (ep := mkPutEnv 1700000001000000000 1700000001000000000).
  pose (eg := mkGetEnv 1700000001000000000 (Dialed 12%nat)
                1700000001000000000).
  destruct (Hspec quiet 1%nat
              (mkConn "127.0.0.1:9898" false 11%nat 1700000000500000000)
              ep eg leased_world (fst (Put quiet (Some 1%nat) ep leased_world)))
    as (w'' & Hget & _).
  - vm_compute. done.
  - done.
  - done.
  - vm_compute. done.
  - eexists. split; [vm_compute; reflexivity|done].
  - destruct Get_after_second_Put as (_ & _ & Hfirst).
    fold ep eg in Hfirst. rewrite Hget in Hfirst. discriminate.
Qed.

(** C6, amended.  After a [Put] that returned [nil] and left the connection
    open, the next [Get] dials nothing and returns the head of the
    free-queue: the connection that was queued first, which is the released
    one exactly when the free-queue was empty before the [Put]. *)
Theorem Get_after_Put sc (l : nat) c ep eg w w' :
  closed (pool w) ≠ 1 →
  heap w !! l = Some c →
  conn_closed c = false →
  Put sc (Some l) ep w = (w', Ret None) →
  (∃ c', heap w' !! l = Some c' ∧ conn_closed c' = false) →
  ∃ w'' p,
    Get eg w' = (w'', Ret (p, None))
    ∧ head (chan_buf (clients (pool w)) ++ [Some l]) = Some p
    ∧ (chan_buf (clients (pool w)) = [] → p = Some l)
    ∧ trace w'' = trace w'
    ∧ heap w'' = heap w'.
Proof.
  intros Hcl Hl Hc Hput Hopen.
  apply (put_success_enqueued _ _ c) in Hput; [|done..]. subst w'.
  destruct (chan_buf (clients (pool w))) as [|p rest] eqn:Hbuf.
  - eexists _, (Some l). unfold Get.
    rewrite (get_from_queue _ _ _ (Some l) []); [done|].
    cbn [enqueued put_counted put_entered pool clients chan_buf with_clients
         with_idle with_used with_assessTime]. by rewrite Hbuf.
  - eexists _, p. unfold Get.
    rewrite (get_from_queue _ _ _ p (rest ++ [Some l])); [done|].
    cbn [enqueued put_counted put_entered pool clients chan_buf with_clients
         with_idle with_used with_assessTime]. by rewrite Hbuf.
Qed.

(** ** The closed flag of a connection *)

Lemma closed_kept_refl w : closed_kept w w.
Proof. intros l c Hl. eauto. Qed.

Lemma closed_kept_trans w1 w2 w3 :
  closed_kept w1 w2 → closed_kept w2 w3 → closed_kept w1 w3.
Proof.
  intros H12 H23 l c Hl.
  destruct (H12 l c Hl) as (c2 & Hl2 & Hc2).
  destruct (H23 l c2 Hl2) as (c3 & Hl3 & Hc3). eauto.
Qed.

Create HintDb reopen.

Lemma never_reopens_ret {A} (a : A) : never_reopens (ret a).
Proof. intros w. apply closed_kept_refl. Qed.

Lemma never_reopens_panic {A} : never_reopens (@panic A).
Proof. intros w. apply closed_kept_refl. Qed.

Lemma never_reopens_bind {A B} (m : M A) (k : A → M B) :
  never_reopens m → (∀ a, never_reopens (k a)) → never_reopens (bind m k).
Proof.
  intros Hm Hk w. unfold bind. specialize (Hm w).
  destruct (m w) as [w1 [a|]]; [|done].
  eapply closed_kept_trans; [exact Hm|apply Hk].
Qed.

Lemma never_reopens_try_recover {A} (body handler : M A) :
  never_reopens body → never_reopens handler →
  never_reopens (try_recover body handler).
Proof.
  intros Hb Hh w. unfold try_recover. specialize (Hb w).
  destruct (body w) as [w1 [a|]]; [done|].
  eapply closed_kept_trans; [exact Hb|apply Hh].
Qed.

Lemma never_reopens_get_pool : never_reopens get_pool.
Proof. intros w. apply closed_kept_refl. Qed.

Lemma never_reopens_set_pool f : never_reopens (set_pool f).
Proof. intros w l c Hl. cbn. eauto. Qed.

Lemma never_reopens_emit ev : never_reopens (emit ev).
Proof. intros w l c Hl. cbn. eauto. Qed.

Lemma never_reopens_load p : never_reopens (load p).
Proof.
  intros w. unfold load. destruct p as [l|]; [|apply closed_kept_refl].
  destruct (heap w !! l); apply closed_kept_refl.
Qed.

Lemma never_reopens_store p f :
  (∀ c, conn_closed c = true → conn_closed (f c) = true) →
  never_reopens (store p f).
Proof.
  intros Hf w. unfold store. destruct p as [l|]; [|apply closed_kept_refl].
  destruct (heap w !! l) as [c|] eqn:Hl; [|apply closed_kept_refl].
  intros l' c' Hl'. cbn [fst heap].
  destruct (decide (l = l')) as [<-|Hne].
  - rewrite list_lookup_insert_eq by (by eapply lookup_lt_Some).
    simplify_eq. eauto.
  - rewrite list_lookup_insert_ne by done. eauto.
Qed.

Lemma never_reopens_alloc c : never_reopens (alloc c).
Proof.
  intros w l c' Hl. cbn [alloc fst heap].
  rewrite lookup_app_l by (by eapply lookup_lt_Some). eauto.
Qed.

#[local] Hint Resolve never_reopens_ret never_reopens_panic
  never_reopens_get_pool never_reopens_set_pool never_reopens_emit
  never_reopens_load never_reopens_alloc : reopen.

(** Goes through a method bind by bind. *)
Ltac reopen_steps :=
  repeat first
    [ assumption
    | solve [eauto with reopen]
    | progress cbv zeta
    | match goal with
      | |- never_reopens (if ?b then _ else _) => destruct b
      | |- never_reopens (match ?x with _ => _ end) => destruct x
      end
    | apply never_reopens_store; by intros []
    | apply never_reopens_try_recover
    | apply never_reopens_bind; [|intros ?] ].

Lemma never_reopens_counters :
  never_reopens addUsed ∧ never_reopens subUsed
  ∧ never_reopens addIdle ∧ never_reopens subIdle ∧ never_reopens GetIdle.
Proof.
  unfold addUsed, subUsed, addIdle, subIdle, GetIdle.
  repeat split; reopen_steps.
Qed.

Lemma never_reopens_channel p :
  never_reopens try_recv ∧ never_reopens (try_send p)
  ∧ never_reopens close_chan.
Proof.
  unfold try_recv, try_send, close_chan. repeat split; reopen_steps.
Qed.

Lemma never_reopens_ThriftConn_Close sc p :
  never_reopens (ThriftConn_Close sc p).
Proof. unfold ThriftConn_Close. reopen_steps. Qed.

Lemma never_reopens_UpdateUsedTime p now :
  never_reopens (UpdateUsedTime p now).
Proof. unfold UpdateUsedTime. reopen_steps. Qed.

Lemma never_reopens_get doNotNew e : never_reopens (get doNotNew e).
Proof.
  destruct never_reopens_counters as (? & ? & ? & ? & ?).
  destruct (never_reopens_channel None) as (? & _ & _).
  unfold get. reopen_steps.
Qed.

Lemma never_reopens_put sc p doNotNew e : never_reopens (put sc p doNotNew e).
Proof.
  destruct never_reopens_counters as (? & ? & ? & ? & ?).
  destruct (never_reopens_channel p) as (_ & ? & _).
  pose proof (never_reopens_ThriftConn_Close sc p).
  pose proof (never_reopens_UpdateUsedTime p (put_clock e)).
  unfold put, put_body, put_recover, put_evict, put_select, IsClose,
    GetUsedTime.
  reopen_steps.
Qed.

Lemma never_reopens_drain sc q : never_reopens (drain sc q).
Proof.
  induction q as [|p q IH]; cbn [drain]; [apply never_reopens_ret|].
  pose proof (never_reopens_ThriftConn_Close sc p).
  reopen_steps.
Qed.

Lemma never_reopens_ThriftPool_Close sc : never_reopens (ThriftPool_Close sc).
Proof.
  destruct (never_reopens_channel None) as (_ & _ & ?).
  pose proof (never_reopens_drain sc).
  unfold ThriftPool_Close. reopen_steps.
Qed.

Lemma never_reopens_reclaim_loop sc n i env :
  never_reopens (reclaim_loop sc n i env).
Proof.
  revert i. induction n as [|n IH]; intros i; cbn [reclaim_loop].
  - apply never_reopens_ret.
  - apply never_reopens_bind; [apply never_reopens_get|]. intros [p err].
    cbn [fst]. destruct p as [l|]; [|apply never_reopens_ret].
    apply never_reopens_bind; [apply never_reopens_put|]. intros _. apply IH.
Qed.

Lemma never_reopens_releaseIdleConn_round sc env :
  never_reopens (releaseIdleConn_round sc env).
Proof.
  pose proof (never_reopens_reclaim_loop sc).
  unfold releaseIdleConn_round, GetInitSize, GetIdle, GetUsed. reopen_steps.
Qed.

Lemma call_closed_kept sc k w : closed_kept w (call sc k w).
Proof.
  destruct k; cbn [call].
  - apply never_reopens_get.
  - apply never_reopens_put.
  - apply never_reopens_ThriftPool_Close.
  - apply never_reopens_releaseIdleConn_round.
  - apply never_reopens_ThriftConn_Close.
  - apply never_reopens_UpdateUsedTime.
  - apply never_reopens_set_pool.
  - apply never_reopens_set_pool.
Qed.

Lemma calls_closed_kept sc ks w : closed_kept w (calls sc ks w).
Proof.
  revert w. induction ks as [|k ks IH]; intros w; cbn [calls foldl].
  - apply closed_kept_refl.
  - eapply closed_kept_trans; [apply (call_closed_kept sc k)|apply IH].
Qed.

(** [Close] of a closed connection: [nil], and the world is untouched. *)
Lemma ThriftConn_Close_closed sc (l : nat) c w :
  heap w !! l = Some c →
  conn_closed c = true →
  ThriftConn_Close sc (Some l) w = (w, Ret None).
Proof.
  intros Hl Hc. unfold ThriftConn_Close, bind, load. rewrite Hl.
  by rewrite Hc.
Qed.

(** [Close] of an open connection: the socket is closed, once, and what
    its [Close] returns is returned. *)
Lemma ThriftConn_Close_open sc (l : nat) c w :
  heap w !! l = Some c →
  conn_closed c = false →
  ThriftConn_Close sc (Some l) w =
    (conn_closed_in l c w, Ret (sc (client c))).
Proof.
  intros Hl Hc. unfold ThriftConn_Close, bind, load, store, emit, ret.
  rewrite Hl, Hc. cbn [heap]. by rewrite Hl.
Qed.

(** C8.  For a connection at [l]: a [Close] that follows a [Close] returns
    [nil] and leaves the world as it is, so the socket is not closed a second
    time; the same holds for any [Close] of a connection that is closed; and
    after a [Close] the connection stays closed through every sequence of
    calls on the pool and on the connections. *)
Theorem ThriftConn_Close_idempotent sc (l : nat) c w :
  heap w !! l = Some c →
  let w1 := fst (ThriftConn_Close sc (Some l) w) in
  ThriftConn_Close sc (Some l) w1 = (w1, Ret None)
  ∧ (conn_closed c = true → ThriftConn_Close sc (Some l) w = (w, Ret None))
  ∧ (∀ ks, ∃ c', heap (calls sc ks w1) !! l = Some c'
                 ∧ conn_closed c' = true).
Proof.
  intros Hl w1.
  assert (∃ c1, heap w1 !! l = Some c1 ∧ conn_closed c1 = true)
    as (c1 & Hl1 & Hc1).
  { subst w1. destruct (conn_closed c) eqn:Hc.
    - rewrite (ThriftConn_Close_closed _ _ c) by done. eauto.
    - rewrite (ThriftConn_Close_open _ _ c) by done.
      exists (with_conn_closed true c). split; [|done].
      cbn [fst conn_closed_in heap].
      apply list_lookup_insert_eq. by eapply lookup_lt_Some. }
  split; [by apply (ThriftConn_Close_closed _ _ c1)|].
  split; [by apply ThriftConn_Close_closed|].
  intros ks. destruct (calls_closed_kept sc ks w1 l c1 Hl1) as (c' & ? & ?).
  eauto.
Qed.

(** ** [Close] of the pool *)

Lemma ThriftConn_Close_pool sc p w :
  pool (fst (ThriftConn_Close sc p w)) = pool w.
Proof.
  unfold ThriftConn_Close, bind, load, store, emit, ret.
  destruct p as [l|]; [|done].
  destruct (heap w !! l) as [c|] eqn:Hl; [|done].
  destruct (conn_closed c); [done|]. cbn [heap]. by rewrite Hl.
Qed.

(** The drain does not touch [idle], wherever it ends. *)
Lemma drain_idle sc q w :
  idle (pool (fst (drain sc q w))) = idle (pool w).
Proof.
  revert w. induction q as [|p q IH]; intros w; cbn [drain]; [done|].
  unfold bind at 1. cbn [set_pool]. destruct p as [l|].
  - unfold bind.
    match goal with
    | |- context [ThriftConn_Close sc (Some l) ?w0] =>
        pose proof (ThriftConn_Close_pool sc (Some l) w0) as Hp;
        destruct (ThriftConn_Close sc (Some l) w0) as [w1 [r|]]
    end; cbn [fst] in *.
    + rewrite IH, Hp. done.
    + by rewrite Hp.
  - by rewrite IH.
Qed.

(** In every state [idle] is after [Close] what it was before. *)
Lemma ThriftPool_Close_idle sc w :
  idle (pool (fst (ThriftPool_Close sc w))) = idle (pool w).
Proof.
  destruct w as [[ep dt idt ms ins u i ast cl [cap buf clo]] h tr].
  unfold ThriftPool_Close, close_chan, bind, get_pool, set_pool, ret, panic.
  simpl. destruct (cl =? 0); simpl; [|done].
  destruct clo; simpl; [done|]. by rewrite drain_idle.
Qed.

Lemma valid_ptr_kept w w' p :
  closed_kept w w' → valid_ptr w p → valid_ptr w' p.
Proof.
  intros Hk. destruct p as [l|]; [|done]. intros [c Hl].
  destruct (Hk l c Hl) as (c' & Hl' & _). by exists c'.
Qed.

(** The drain of a free-queue of valid pointers runs to its end: the queue
    is empty then, and every connection that was in it is closed. *)
Lemma drain_all sc q w :
  chan_buf (clients (pool w)) = q →
  Forall (valid_ptr w) q →
  ∃ w',
    drain sc q w = (w', Ret tt)
    ∧ chan_buf (clients (pool w')) = []
    ∧ chan_closed (clients (pool w')) = chan_closed (clients (pool w))
    ∧ closed (pool w') = closed (pool w)
    ∧ ∀ l : nat, Some l ∈ q →
        ∃ c', heap w' !! l = Some c' ∧ conn_closed c' = true.
Proof.
  revert w. induction q as [|p q IH]; intros w Hbuf Hvalid.
  { exists w. cbn [drain]. repeat split; try done.
    intros l Hin. by apply elem_of_nil in Hin. }
  apply Forall_cons in Hvalid as [Hp Hq]. cbn [drain]. unfold bind at 1.
  cbn [set_pool].
  set (w0 := mkWorld _ (heap w) (trace w)).
  assert (closed_kept w w0) as Hk0 by (intros l c Hl; cbn; eauto).
  destruct p as [l|].
  - destruct Hp as [c Hl].
    assert (heap w0 !! l = Some c) as Hl0 by done.
    pose proof (never_reopens_ThriftConn_Close sc (Some l) w0) as Hk1.
    assert (∃ w1 r c1, ThriftConn_Close sc (Some l) w0 = (w1, Ret r)
                       ∧ pool w1 = pool w0
                       ∧ heap w1 !! l = Some c1 ∧ conn_closed c1 = true)
      as (w1 & r & c1 & Hclose & Hpool & Hl1 & Hc1).
    { destruct (conn_closed c) eqn:Hc.
      - rewrite (ThriftConn_Close_closed _ _ c) by done. by eexists _, _, c.
      - rewrite (ThriftConn_Close_open _ _ c) by done.
        eexists _, _, (with_conn_closed true c). repeat split.
        cbn [conn_closed_in heap].
        apply list_lookup_insert_eq. by eapply lookup_lt_Some. }
    unfold bind. rewrite Hclose in *. cbn [fst] in Hk1.
    destruct (IH w1) as (w' & Hdrain & Hempty & Hcc & Hcl & Hall).
    { by rewrite Hpool. }
    { eapply Forall_impl; [exact Hq|]. intros p Hv.
      eapply valid_ptr_kept; [|exact Hv].
      eapply closed_kept_trans; [exact Hk0|exact Hk1]. }
    exists w'. rewrite Hdrain, Hempty, Hcc, Hcl, Hpool.
    repeat split; try done.
    intros l' Hin. apply elem_of_cons in Hin as [Heq|Hin]; [|by apply Hall].
    injection Heq as ->.
    pose proof (never_reopens_drain sc q w1) as Hk2.
    rewrite Hdrain in Hk2. cbn [fst] in Hk2.
    destruct (Hk2 l c1 Hl1) as (c' & ? & ?). eauto.
  - destruct (IH w0) as (w' & Hdrain & Hempty & Hcc & Hcl & Hall).
    { done. }
    { eapply Forall_impl; [exact Hq|]. intros p Hv.
      by eapply valid_ptr_kept. }
    exists w'. rewrite Hdrain, Hempty, Hcc, Hcl. repeat split; try done.
    intros l' Hin. apply elem_of_cons in Hin as [Heq|Hin]; [done|].
    by apply Hall.
Qed.

(** C9.  In every state the [idle] that [GetIdle] reads is the same after
    [Close] as before it.  That includes the [Close] that does its work: on
    an open pool it returns with the closed flag set and the free-queue
    closed and empty, every connection that was queued is closed, and [idle]
    still counts them. *)
Theorem ThriftPool_Close_keeps_idle sc w :
  snd (GetIdle (fst (ThriftPool_Close sc w))) = snd (GetIdle w)
  ∧ (closed (pool w) = 0 →
     chan_closed (clients (pool w)) = false →
     Forall (valid_ptr w) (chan_buf (clients (pool w))) →
     ∃ w',
       ThriftPool_Close sc w = (w', Ret tt)
       ∧ closed (pool w') = 1
       ∧ chan_closed (clients (pool w')) = true
       ∧ chan_buf (clients (pool w')) = []
       ∧ (∀ l : nat, Some l ∈ chan_buf (clients (pool w)) →
            ∃ c', heap w' !! l = Some c' ∧ conn_closed c' = true)
       ∧ idle (pool w') = idle (pool w)).
Proof.
  split.
  { unfold GetIdle, bind, get_pool, ret. cbn [snd].
    by rewrite ThriftPool_Close_idle. }
  intros Hcl Hq Hvalid.
  destruct w as [[ep dt idt ms ins u i ast cl [cap buf clo]] h tr].
  simpl in *. subst cl clo.
  set (w1 := mkWorld (mkPool ep dt idt ms ins u i ast 1 (mkChan cap buf true))
               h tr).
  destruct (drain_all sc buf w1) as (w' & Hdrain & Hempty & Hcc & Hflag & Hall);
    [done|done|].
  exists w'. split.
  { unfold ThriftPool_Close, close_chan, bind, get_pool, set_pool, ret.
    simpl. exact Hdrain. }
  pose proof (drain_idle sc buf w1) as Hsame. rewrite Hdrain in Hsame.
  repeat split; try done.
Qed.

(** ** Further facts about the paths *)

(** [get] on a free-queue that is closed and drained: the receive yields the
    zero value, so [get] returns [nil, nil] in both modes and decrements
    [idle]. *)
Lemma get_closed_queue doNotNew e w :
  chan_buf (clients (pool w)) = [] →
  chan_closed (clients (pool w)) = true →
  get doNotNew e w =
    (mkWorld
       (with_idle (add32 (idle (pool w)) (-1))
          (with_used (add32 (used (pool w)) 1)
             (with_assessTime (Unix (get_now e)) (pool w))))
       (heap w) (trace w),
     Ret (None, None)).
Proof.
  destruct w as [[ep dt idt ms ins u i ast cl [cap buf clo]] h tr].
  simpl. intros -> ->. reflexivity.
Qed.

(** One step of the Reclaimer on a stale connection: [get(true)] takes it
    from the free-queue and [put(conn, true)] evicts it; [GetIdle] is one
    less than before the step and [used] is unchanged. *)
Lemma reclaim_stale sc (l : nat) c rest eg ep w :
  closed (pool w) ≠ 1 →
  chan_buf (clients (pool w)) = Some l :: rest →
  heap w !! l = Some c →
  conn_closed c = false →
  int32_fields (pool w) →
  InitSize (pool w) < idle (pool w) →
  0 ≤ IdleTimeout (pool w) →
  int64_ok (Unix (put_clock ep) - Unix (usedTime c)) →
  IdleTimeout (pool w) < Unix (put_clock ep) - Unix (usedTime c) →
  ∃ w1 w2,
    get true eg w = (w1, Ret (Some l, None))
    ∧ put sc (Some l) true ep w1 = (w2, Ret None)
    ∧ idle (pool w2) = idle (pool w) - 1
    ∧ used (pool w2) = used (pool w)
    ∧ chan_buf (clients (pool w2)) = rest
    ∧ heap w2 !! l = Some (with_conn_closed true c).
Proof.
  intros Hcl Hbuf Hl Hc Hok Habove Hpos H64 Hstale.
  destruct Hok as (Hdt & Hit & Hms & Hins & Hu & Hi & Hclosed).
  assert (add32 (idle (pool w)) (-1) = idle (pool w) - 1) as Hdec.
  { unfold add32. apply wrap32_id. unfold int32_ok in *. lia. }
  assert (add32 (idle (pool w) - 1) 1 = idle (pool w)) as Hinc.
  { unfold add32. replace (idle (pool w) - 1 + 1) with (idle (pool w)) by lia.
    by apply wrap32_id. }
  rewrite (get_from_queue _ _ _ _ _ Hbuf). rewrite Hdec.
  set (w1 := mkWorld _ (heap w) (trace w)).
  assert (int32_fields (pool w1)) as Hok1.
  { subst w1. unfold int32_fields.
    cbn [pool with_idle with_clients with_used with_assessTime DialTimeout
         IdleTimeout MaxSize InitSize used idle closed].
    split_and!; try done; [apply wrap32_ok|unfold int32_ok in *; lia]. }
  assert (InitSize (pool w1) < add32 (idle (pool w1)) 1) as Habove1.
  { subst w1. cbn [pool with_idle InitSize idle]. rewrite Hinc.
    cbn [with_clients with_used with_assessTime]. done. }
  set (w2 := discarded l c (put_counted l c true ep w1)).
  destruct (evicted_world l c true ep w1 Hl Hok1 Habove1 w2 eq_refl)
    as (Hl2 & _ & Hq & Hidle & _).
  exists w1, w2. split; [done|]. split.
  { rewrite (put_open _ _ c) by done. cbv zeta.
    by rewrite (evicts_stale c ep w1). }
  rewrite Hidle, Hq, Hl2. subst w1 w2.
  cbn [discarded put_counted put_entered pool used idle clients chan_buf
       with_idle with_clients with_used with_assessTime stamped].
  split_and!; try done. by apply add32_inc_dec.
Qed.

(** A round of the Reclaimer twenty seconds after the two releases of
    thrift_pool_test.go: with [InitSize = 1] the connection at the head of
    the free-queue is evicted and the other one is queued again. *)
Lemma releaseIdleConn_round_run :
  let now := 1700000021000000000 in
  let env := λ _ : nat, (mkGetEnv now (Dialed 0%nat) now, mkPutEnv now now) in
  let w := fst (Put quiet (Some 1%nat)
                  (mkPutEnv 1700000001000000000 1700000001000000000)
                  leased_world) in
  let w' := fst (releaseIdleConn_round quiet env w) in
  chan_buf (clients (pool w)) = [Some 0%nat; Some 1%nat]
  ∧ idle (pool w) = 2
  ∧ snd (releaseIdleConn_round quiet env w) = Ret true
  ∧ chan_buf (clients (pool w')) = [Some 1%nat]
  ∧ idle (pool w') = 1
  ∧ used (pool w') = 0
  ∧ conn_closed <$> heap w' = [true; false].
Proof. vm_compute. done. Qed.

(** [put] of [nil]: the dereference panics in the body, the deferred
    function recovers and dereferences again, and that panic leaves [put]. *)
Lemma put_nil_panics sc doNotNew e w :
  snd (put sc None doNotNew e w) = Panic.
Proof.
  destruct w as [[ep dt idt ms ins u i ast cl [cap buf clo]] h tr].
  unfold_methods. destruct (cl =? 1); reflexivity.
Qed.

(** The message of the error of [Get] in the scenario of the
    specification: [MaxSize = 2], two connections lent, a third asked
    for. *)
Lemma pool_exhausted_message :
  Error (ErrPoolEmpty 3 2 1 2)
  = "thriftpool empty, used:3/2, init:1, max:%!s(int32=2)".
Proof. vm_compute. done. Qed.

(** * Invariants of the pool and the remaining paths *)

(** ** Relations that computations keep *)

Section Respects.

Context (R : World → World → Prop).
Hypothesis R_refl : ∀ w, R w w.
Hypothesis R_trans : ∀ w1 w2 w3, R w1 w2 → R w2 w3 → R w1 w3.

Lemma respects_ret {A} (a : A) : respects R (ret a).
Proof. intros w. apply R_refl. Qed.

Lemma respects_panic {A} : respects R (@panic A).
Proof. intros w. apply R_refl. Qed.

Lemma respects_get_pool : respects R get_pool.
Proof. intros w. apply R_refl. Qed.

Lemma respects_load p : respects R (load p).
Proof.
  intros w. unfold load. destruct p as [l|]; [|apply R_refl].
  destruct (heap w !! l); apply R_refl.
Qed.

Lemma respects_bind {A B} (m : M A) (k : A → M B) :
  respects R m → (∀ a, respects R (k a)) → respects R (bind m k).
Proof.
  intros Hm Hk w. unfold bind. specialize (Hm w).
  destruct (m w) as [w1 [a|]]; [|done].
  eapply R_trans; [exact Hm|apply Hk].
Qed.

Lemma respects_try_recover {A} (body handler : M A) :
  respects R body → respects R handler →
  respects R (try_recover body handler).
Proof.
  intros Hb Hh w. unfold try_recover. specialize (Hb w).
  destruct (body w) as [w1 [a|]]; [done|].
  eapply R_trans; [exact Hb|apply Hh].
Qed.

(** Goes through a method bind by bind, with the facts of the context. *)
Ltac respects_steps :=
  repeat first
    [ assumption
    | match goal with H : ∀ _, respects R _ |- _ => apply H end
    | match goal with H : ∀ _ _, respects R _ |- _ => apply H end
    | match goal with H : ∀ _ _ _, respects R _ |- _ => apply H end
    | apply respects_ret | apply respects_panic | apply respects_get_pool
    | apply respects_load
    | progress cbv zeta
    | match goal with
      | |- respects R (if ?b then _ else _) => destruct b
      | |- respects R (match ?x with _ => _ end) => destruct x
      end
    | apply respects_try_recover
    | apply respects_bind; [|intros ?] ].

Section FromOperations.

Hypothesis R_ops : operations_respect R.

Lemma respects_counters :
  respects R addUsed ∧ respects R subUsed ∧ respects R addIdle
  ∧ respects R subIdle ∧ respects R GetIdle ∧ respects R GetUsed
  ∧ respects R GetInitSize.
Proof.
  destruct R_ops as (? & ? & ? & ? & ? & ? & ? & ? & ? & ?).
  unfold addUsed, subUsed, addIdle, subIdle, GetIdle, GetUsed, GetInitSize.
  split_and!; respects_steps.
Qed.

Lemma respects_put sc p doNotNew e : respects R (put sc p doNotNew e).
Proof.
  destruct respects_counters as (? & ? & ? & ? & ? & ? & ?).
  destruct R_ops as (? & ? & ? & ? & ? & ? & ? & ? & ? & ?).
  unfold put, put_body, put_recover, put_evict, put_select, IsClose,
    GetUsedTime.
  respects_steps.
Qed.

Lemma respects_drain sc q : respects R (drain sc q).
Proof.
  destruct R_ops as (? & ? & ? & ? & ? & ? & ? & ? & ? & ?).
  induction q as [|p q IH]; cbn [drain]; respects_steps.
Qed.

Lemma respects_ThriftPool_Close sc : respects R (ThriftPool_Close sc).
Proof.
  pose proof (respects_drain sc).
  destruct R_ops as (? & ? & ? & ? & ? & ? & ? & ? & ? & ?).
  unfold ThriftPool_Close. respects_steps.
Qed.

Lemma methods_from_operations :
  (∀ e, respects R (get true e)) →
  (∀ timeout, respects R (SetIdleTimeout timeout)) →
  (∀ timeout, respects R (SetDialTimeout timeout)) →
  methods_respect R.
Proof.
  intros Hget Hidle Hdial. unfold methods_respect. split_and!; try done.
  - intros. apply respects_put.
  - apply R_ops.
  - apply R_ops.
Qed.

End FromOperations.

Section Calls.

Hypothesis R_methods : methods_respect R.

Lemma respects_reclaim_loop sc n i env : respects R (reclaim_loop sc n i env).
Proof.
  destruct R_methods as (Hget & Hput & _).
  revert i. induction n as [|n IH]; intros i; cbn [reclaim_loop].
  - apply respects_ret.
  - apply respects_bind; [apply Hget|]. intros [p err].
    cbn [fst]. destruct p as [l|]; [|apply respects_ret].
    apply respects_bind; [apply Hput|]. intros _. apply IH.
Qed.

Lemma respects_releaseIdleConn_round sc env :
  respects R (releaseIdleConn_round sc env).
Proof.
  pose proof (respects_reclaim_loop sc).
  unfold releaseIdleConn_round, GetInitSize, GetIdle, GetUsed.
  respects_steps.
Qed.

Lemma inner_call_respects sc k w : inner_call k → R w (call sc k w).
Proof.
  destruct R_methods as (Hget & Hput & Hclose & Hstamp & Hidle & Hdial).
  destruct k; cbn [call inner_call]; intros Hk; subst; try done.
  - apply Hget.
  - apply Hput.
  - apply respects_releaseIdleConn_round.
  - apply Hclose.
  - apply Hstamp.
  - apply Hidle.
  - apply Hdial.
Qed.

Hypothesis R_Get : ∀ e, respects R (get false e).

(** A call other than the [Close] of the pool. *)
Lemma open_call_respects sc k w : k ≠ CallPoolClose → R w (call sc k w).
Proof.
  intros Hk. destruct k as [[] e| | | | | | |];
    try (by apply inner_call_respects). apply R_Get.
Qed.

Lemma open_calls_respect sc ks w :
  Forall (λ k, k ≠ CallPoolClose) ks → R w (calls sc ks w).
Proof.
  revert w. induction ks as [|k ks IH]; intros w Hks; cbn [calls foldl].
  - apply R_refl.
  - apply Forall_cons in Hks as [Hk Hks].
    eapply R_trans; [by apply (open_call_respects sc k)|by apply IH].
Qed.

Hypothesis R_pool_close : ∀ sc, respects R (ThriftPool_Close sc).

Lemma call_respects sc k w : R w (call sc k w).
Proof.
  destruct k; try (by apply open_call_respects). apply R_pool_close.
Qed.

Lemma calls_respect sc ks w : R w (calls sc ks w).
Proof.
  revert w. induction ks as [|k ks IH]; intros w; cbn [calls foldl].
  - apply R_refl.
  - eapply R_trans; [apply (call_respects sc k)|apply IH].
Qed.

End Calls.

End Respects.

(** ** What no call changes *)

(** Opens the world and runs the operation at hand on it, case by case. *)
Ltac open_world :=
  match goal with
  | w : World |- _ =>
      destruct w as [[ep dt idt ms ins u i ast cl [cap buf clo]] h tr]
  end.

Ltac run_cases :=
  unfold respects; intros; open_world;
  unfold SetIdleTimeout, SetDialTimeout; unfold_methods;
  repeat case_match; simplify_eq; cbn [fst snd].

Lemma config_kept_refl w : config_kept w w.
Proof. by unfold config_kept. Qed.

Lemma config_kept_trans w1 w2 w3 :
  config_kept w1 w2 → config_kept w2 w3 → config_kept w1 w3.
Proof.
  unfold config_kept. intros (-> & -> & -> & -> & ? & ?) (-> & -> & -> & -> & ? & ?).
  split_and!; auto.
Qed.

Lemma config_kept_get doNotNew e : respects config_kept (get doNotNew e).
Proof.
  run_cases; unfold config_kept; cbn; split_and!; done.
Qed.

Lemma config_kept_operations : operations_respect config_kept.
Proof.
  unfold operations_respect. split_and!; run_cases;
    unfold config_kept; cbn; split_and!; done.
Qed.

Lemma config_kept_setters timeout :
  respects config_kept (SetIdleTimeout timeout)
  ∧ respects config_kept (SetDialTimeout timeout).
Proof.
  split; run_cases; unfold config_kept; cbn; split_and!; try done; lia.
Qed.

Lemma config_kept_methods : methods_respect config_kept.
Proof.
  apply (methods_from_operations _ config_kept_refl config_kept_trans
           config_kept_operations); intros.
  - apply config_kept_get.
  - apply config_kept_setters.
  - apply config_kept_setters.
Qed.

Lemma calls_config_kept sc ks w : config_kept w (calls sc ks w).
Proof.
  apply (calls_respect _ config_kept_refl config_kept_trans
           config_kept_methods).
  - intros e. apply config_kept_get.
  - intros sc2. apply (respects_ThriftPool_Close _ config_kept_refl
                         config_kept_trans config_kept_operations).
Qed.

(** X1.  Through every sequence of calls the pool keeps its endpoint, its
    [MaxSize], its [InitSize] and the capacity of its free-queue, and a
    [DialTimeout] or [IdleTimeout] that is at least 1 stays at least 1. *)
Theorem calls_keep_config sc ks w :
  let w2 := calls sc ks w in
  Endpoint (pool w2) = Endpoint (pool w)
  ∧ MaxSize (pool w2) = MaxSize (pool w)
  ∧ InitSize (pool w2) = InitSize (pool w)
  ∧ chan_cap (clients (pool w2)) = chan_cap (clients (pool w))
  ∧ (1 ≤ DialTimeout (pool w) → 1 ≤ DialTimeout (pool w2))
  ∧ (1 ≤ IdleTimeout (pool w) → 1 ≤ IdleTimeout (pool w2)).
Proof. apply calls_config_kept. Qed.

(** ** [put], whatever it is given *)

(** [put] of [nil]: [used] is decremented, then the dereference panics, in
    the body and again in the deferred function. *)
Lemma put_invalid sc p doNotNew e w :
  deref w p = None →
  put sc p doNotNew e w = (put_entered e w, Panic).
Proof.
  destruct w as [[ep dt idt ms ins u i ast cl [cap buf clo]] h tr].
  unfold deref, put_entered. cbn [heap]. intros Hp.
  destruct (cl =? 1) eqn:Hcl; destruct p as [l|];
    repeat (progress (unfold_methods; rewrite ?Hp, ?Hcl; simpl));
    reflexivity.
Qed.

(** The pool after [put]: the flag and the capacity and state of the
    free-queue are as before; the queue holds what it held, and [idle] is as
    before (increment and decrement cancelling when both were made), or the
    queue is longer by the connection released, which is open, and [idle] is
    incremented. *)
Lemma put_queue sc p doNotNew e w :
  let w' := fst (put sc p doNotNew e w) in
  closed (pool w') = closed (pool w)
  ∧ chan_cap (clients (pool w')) = chan_cap (clients (pool w))
  ∧ chan_closed (clients (pool w')) = chan_closed (clients (pool w))
  ∧ ((chan_buf (clients (pool w')) = chan_buf (clients (pool w))
      ∧ (idle (pool w') = idle (pool w)
         ∨ idle (pool w') = add32 (add32 (idle (pool w)) 1) (-1)))
     ∨ ∃ (l : nat) c,
         p = Some l ∧ heap w' !! l = Some c ∧ conn_closed c = false
         ∧ chan_closed (clients (pool w)) = false
         ∧ Z.of_nat (length (chan_buf (clients (pool w))))
           < chan_cap (clients (pool w))
         ∧ chan_buf (clients (pool w')) = chan_buf (clients (pool w)) ++ [p]
         ∧ idle (pool w') = add32 (idle (pool w)) 1
         ∧ snd (put sc p doNotNew e w) = Ret None).
Proof.
  destruct (deref w p) as [c|] eqn:Hp.
  2:{ rewrite put_invalid by done. cbn. auto 10. }
  destruct p as [l|]; [|done]. cbn [deref] in Hp.
  destruct (decide (closed (pool w) = 1)) as [Hcl|Hcl].
  { rewrite (put_closed_pool _ _ c) by done.
    destruct (conn_closed c); cbn; auto 10. }
  destruct (conn_closed c) eqn:Hc.
  { rewrite (put_closed_conn _ _ c) by done. cbn. auto 10. }
  rewrite (put_open _ _ c) by done. cbv zeta.
  destruct (evicts _ _ _ _); [cbn; by auto 10|].
  rewrite (put_select_recover _ _ (stamped doNotNew e c))
    by (by rewrite ?stamped_closed; try apply put_counted_lookup).
  cbn [put_counted put_entered pool clients with_idle with_used
       with_assessTime chan_closed chan_buf chan_cap].
  destruct (chan_closed (clients (pool w))) eqn:Hq; [cbn; by auto 10|].
  destruct (Z.ltb_spec (Z.of_nat (length (chan_buf (clients (pool w)))))
              (chan_cap (clients (pool w)))); [|cbn; by auto 10].
  cbn. split_and!; try done. right. exists l, (stamped doNotNew e c).
  split_and!; try done.
  - apply list_lookup_insert_eq. by eapply lookup_lt_Some.
  - by rewrite stamped_closed.
Qed.

(** [put] of a connection returns. *)
Lemma put_valid_returns sc p doNotNew e w :
  is_Some (deref w p) → ∃ r, snd (put sc p doNotNew e w) = Ret r.
Proof.
  intros [c Hp]. destruct p as [l|]; [|done]. cbn [deref] in Hp.
  destruct (decide (closed (pool w) = 1)) as [Hcl|Hcl].
  { rewrite (put_closed_pool _ _ c) by done. eauto. }
  destruct (conn_closed c) eqn:Hc.
  { rewrite (put_closed_conn _ _ c) by done. eauto. }
  rewrite (put_open _ _ c) by done. cbv zeta.
  destruct (evicts _ _ _ _); [by eauto|].
  rewrite (put_select_recover _ _ (stamped doNotNew e c))
    by (by rewrite ?stamped_closed; try apply put_counted_lookup).
  repeat case_match; eauto.
Qed.

Lemma put_used sc p doNotNew e w :
  used (pool (fst (put sc p doNotNew e w))) = add32 (used (pool w)) (-1).
Proof.
  destruct (deref w p) as [c|] eqn:Hp.
  2:{ by rewrite put_invalid. }
  destruct p as [l|]; [|done]. cbn [deref] in Hp.
  destruct (decide (closed (pool w) = 1)) as [Hcl|Hcl].
  { rewrite (put_closed_pool _ _ c) by done. by destruct (conn_closed c). }
  destruct (conn_closed c) eqn:Hc.
  { by rewrite (put_closed_conn _ _ c). }
  rewrite (put_open _ _ c) by done. cbv zeta.
  destruct (evicts _ _ _ _); [done|].
  rewrite (put_select_recover _ _ (stamped doNotNew e c))
    by (by rewrite ?stamped_closed; try apply put_counted_lookup).
  by repeat case_match.
Qed.

(** X2.  [put] panics exactly when it is given [nil]: for a connection it
    returns, in every state of the pool, of the free-queue and of the
    connection. *)
Theorem put_panics_iff_nil sc p doNotNew e w :
  snd (put sc p doNotNew e w) = Panic ↔ deref w p = None.
Proof.
  split.
  - destruct (deref w p) as [c|] eqn:Hp; [|done]. intros Hpanic.
    destruct (put_valid_returns sc p doNotNew e w) as [r Hr]; [by eauto|].
    congruence.
  - intros Hp. by rewrite put_invalid.
Qed.

(** X3.  [put] decrements [used] by one on every path: the connection
    queued, evicted, discarded, closed before, or [nil]. *)
Theorem put_decrements_used sc p doNotNew e w :
  used (pool (fst (put sc p doNotNew e w))) = add32 (used (pool w)) (-1).
Proof. apply put_used. Qed.

(** X4.  What enters the free-queue is an open connection: when [put]
    changes the queue, it has appended the connection it was given, that
    connection is open afterwards and [put] has returned [nil]; nothing is
    ever taken out of the queue by [put]. *)
Theorem put_enqueues_open_conn sc p doNotNew e w :
  let w' := fst (put sc p doNotNew e w) in
  chan_buf (clients (pool w')) ≠ chan_buf (clients (pool w)) →
  chan_buf (clients (pool w')) = chan_buf (clients (pool w)) ++ [p]
  ∧ (∃ c, deref w' p = Some c ∧ conn_closed c = false)
  ∧ snd (put sc p doNotNew e w) = Ret None.
Proof.
  intros w' Hne.
  destruct (put_queue sc p doNotNew e w) as (_ & _ & _ & [[Hsame _]|Happ]);
    [done|].
  destruct Happ as (l & c & -> & Hl & Hc & _ & _ & Hbuf & _ & Hret).
  split_and!; try done. exists c. done.
Qed.

(** ** [Get] when it dials *)

Lemma get_dial_paths e w :
  chan_buf (clients (pool w)) = [] →
  chan_closed (clients (pool w)) = false →
  add32 (used (pool w)) 1 ≤ MaxSize (pool w) →
  Get e w =
    let w1 := get_counted e w in
    match get_dial e with
    | NewSocketFails err =>
        (mkWorld (pool w1) (heap w) (trace w ++ [dial_event (pool w)]),
         Ret (None, Some err))
    | OpenFails s err =>
        (mkWorld (pool w1) (heap w)
           (trace w ++ [dial_event (pool w); EvOpen s]),
         Ret (None, Some err))
    | Dialed s =>
        (mkWorld (pool w1)
           (heap w ++ [mkConn (Endpoint (pool w)) false s (get_born e)])
           (trace w ++ [dial_event (pool w); EvOpen s]),
         Ret (Some (length (heap w)), None))
    end.
Proof.
  destruct w as [[ep dt idt ms ins u i ast cl [cap buf clo]] h tr].
  simpl. intros -> -> Hle. unfold dial_event, get_counted.
  unfold_methods. rewrite (gtb_false _ _ Hle).
  destruct (get_dial e); simpl; rewrite <- ?app_assoc; reflexivity.
Qed.

(** X5.  A dial that fails: [Get] returns no connection and the error of
    the transport as it is, whether the socket could not be made or could not
    be opened; no connection is created, the free-queue and [idle] are
    untouched, and [used] keeps the increment of this [Get]. *)
Theorem Get_dial_failure e w err :
  chan_buf (clients (pool w)) = [] →
  chan_closed (clients (pool w)) = false →
  add32 (used (pool w)) 1 ≤ MaxSize (pool w) →
  get_dial e = NewSocketFails err ∨ (∃ s, get_dial e = OpenFails s err) →
  ∃ w',
    Get e w = (w', Ret (None, Some err))
    ∧ heap w' = heap w
    ∧ clients (pool w') = clients (pool w)
    ∧ idle (pool w') = idle (pool w)
    ∧ used (pool w') = add32 (used (pool w)) 1.
Proof.
  intros Hbuf Hopen Hle Hfail. rewrite get_dial_paths by done. cbv zeta.
  destruct Hfail as [->|[s ->]]; eexists; (split; [reflexivity|]);
    by destruct w as [[] ? ?].
Qed.

(** X6.  A dial that succeeds: [Get] returns a connection that did not
    exist before, stored at a new address; it is open, carries the endpoint
    of the pool, holds the socket the transport gave and the time of its
    creation; the connections that existed are untouched, and so are the
    free-queue and [idle]; [used] is incremented. *)
Theorem Get_dials_connection e w s :
  chan_buf (clients (pool w)) = [] →
  chan_closed (clients (pool w)) = false →
  add32 (used (pool w)) 1 ≤ MaxSize (pool w) →
  get_dial e = Dialed s →
  ∃ w' (l : nat),
    Get e w = (w', Ret (Some l, None))
    ∧ heap w !! l = None
    ∧ heap w' !! l
      = Some (mkConn (Endpoint (pool w)) false s (get_born e))
    ∧ (∀ (l' : nat) c, heap w !! l' = Some c → heap w' !! l' = Some c)
    ∧ trace w' = trace w ++ [dial_event (pool w); EvOpen s]
    ∧ clients (pool w') = clients (pool w)
    ∧ idle (pool w') = idle (pool w)
    ∧ used (pool w') = add32 (used (pool w)) 1.
Proof.
  intros Hbuf Hopen Hle Hdial. rewrite get_dial_paths by done. cbv zeta.
  rewrite Hdial. eexists _, (length (heap w)). split; [reflexivity|].
  cbn [heap trace pool]. split_and!; try (by destruct w as [[] ? ?]).
  - by apply lookup_ge_None_2.
  - rewrite lookup_app_r by done. by rewrite Nat.sub_diag.
  - intros l' c Hl'. by apply lookup_app_l_Some.
Qed.

(** ** The sockets are closed once *)

Lemma filter_length_insert {A} (f : A → bool) (h : list A) (l : nat) x y :
  h !! l = Some x →
  (length (List.filter f (<[l:=y]> h)) + (if f x then 1 else 0) =
   length (List.filter f h) + (if f y then 1 else 0))%nat.
Proof.
  revert l. induction h as [|a h IH]; intros [|l] Hl; simplify_eq/=.
  - destruct (f x), (f y); simpl; lia.
  - specialize (IH l Hl). destruct (f a); simpl; lia.
Qed.

Lemma closed_conns_insert s h (l : nat) c c' :
  h !! l = Some c →
  (closed_conns s (<[l:=c']> h) + (if holds_closed s c then 1 else 0) =
   closed_conns s h + (if holds_closed s c' then 1 else 0))%nat.
Proof. apply filter_length_insert. Qed.

Lemma socket_closes_app s tr ev :
  socket_closes s (tr ++ [ev])
  = (socket_closes s tr + (if is_close_of s ev then 1 else 0))%nat.
Proof.
  unfold socket_closes. rewrite List.filter_app, length_app. simpl.
  by destruct (is_close_of s ev).
Qed.

Lemma closed_conns_app s h c :
  closed_conns s (h ++ [c])
  = (closed_conns s h + (if holds_closed s c then 1 else 0))%nat.
Proof.
  unfold closed_conns. rewrite List.filter_app, length_app. simpl.
  by destruct (holds_closed s c).
Qed.

Lemma closes_match_refl s w : closes_match s w w.
Proof. unfold closes_match. lia. Qed.

Lemma closes_match_trans s w1 w2 w3 :
  closes_match s w1 w2 → closes_match s w2 w3 → closes_match s w1 w3.
Proof. unfold closes_match. lia. Qed.

(** Finishes the cases of [run_cases] for [closes_match]. *)
Ltac closes_cases s :=
  unfold closes_match; cbn [heap trace];
  rewrite ?socket_closes_app, ?closed_conns_app; cbn [is_close_of];
  try match goal with
      | H : ?h !! ?l = Some ?c |- context [<[?l := ?c']> ?h] =>
          pose proof (closed_conns_insert s h l c c' H) as Hins;
          revert Hins
      end;
  unfold holds_closed, with_conn_closed, with_usedTime;
  cbn [conn_closed client andb];
  try lia.

Lemma closes_match_get s doNotNew e : respects (closes_match s) (get doNotNew e).
Proof. run_cases; closes_cases s. Qed.

Lemma closes_match_operations s : operations_respect (closes_match s).
Proof.
  unfold operations_respect. split_and!; run_cases; closes_cases s.
Qed.

Lemma closes_match_methods s : methods_respect (closes_match s).
Proof.
  apply (methods_from_operations _ (closes_match_refl s)
           (closes_match_trans s) (closes_match_operations s)); intros.
  - apply closes_match_get.
  - run_cases; closes_cases s.
  - run_cases; closes_cases s.
Qed.

(** X7.  Through every sequence of calls, and for every socket, the number
    of calls of the transport's [Close] on the socket grows by exactly as
    much as the number of closed connections that hold it: one call for each
    connection that gets closed, by whichever path, and none besides. *)
Theorem calls_close_sockets_once sc ks w s :
  closes_match s w (calls sc ks w).
Proof.
  apply (calls_respect _ (closes_match_refl s) (closes_match_trans s)
           (closes_match_methods s)).
  - intros e. apply closes_match_get.
  - intros sc2. apply (respects_ThriftPool_Close _ (closes_match_refl s)
                         (closes_match_trans s) (closes_match_operations s)).
Qed.

(** ** The Reclaimer creates nothing *)

Lemma nothing_dialled_refl w : nothing_dialled w w.
Proof. by unfold nothing_dialled. Qed.

Lemma nothing_dialled_trans w1 w2 w3 :
  nothing_dialled w1 w2 → nothing_dialled w2 w3 → nothing_dialled w1 w3.
Proof. unfold nothing_dialled. intros [-> ->] [-> ->]. done. Qed.

Ltac dialled_cases :=
  unfold nothing_dialled; cbn [heap trace];
  rewrite ?List.filter_app, ?length_insert; cbn [List.filter is_dial];
  rewrite ?app_nil_r; try done.

Lemma nothing_dialled_operations : operations_respect nothing_dialled.
Proof. unfold operations_respect. split_and!; run_cases; dialled_cases. Qed.

Lemma nothing_dialled_methods : methods_respect nothing_dialled.
Proof.
  apply (methods_from_operations _ nothing_dialled_refl
           nothing_dialled_trans nothing_dialled_operations); intros;
    run_cases; dialled_cases.
Qed.

(** X8.  A round of the Reclaimer asks the transport for no socket, opens
    none and creates no connection, in whatever state it finds the pool. *)
Theorem releaseIdleConn_round_dials_nothing sc env w :
  let w2 := fst (releaseIdleConn_round sc env w) in
  List.filter is_dial (trace w2) = List.filter is_dial (trace w)
  ∧ length (heap w2) = length (heap w).
Proof.
  apply (respects_releaseIdleConn_round _ nothing_dialled_refl
           nothing_dialled_trans nothing_dialled_methods).
Qed.

(** ** No socket without a timeout *)

Lemma timed_kept_refl w : timed_kept w w.
Proof. by unfold timed_kept. Qed.

Lemma timed_kept_trans w1 w2 w3 :
  timed_kept w1 w2 → timed_kept w2 w3 → timed_kept w1 w3.
Proof.
  unfold timed_kept. intros H12 H23 H1.
  destruct (H12 H1) as [H2 E12]. destruct (H23 H2) as [H3 E23].
  split; [done|]. by rewrite E23.
Qed.

Ltac timed_cases :=
  unfold timed_kept; cbn [pool DialTimeout heap trace]; intros;
  repeat match goal with
         | H : (_ <? _) = false |- _ => apply Z.ltb_ge in H
         end;
  rewrite ?List.filter_app; cbn [List.filter is_untimed_dial];
  rewrite ?app_nil_r; try done; try (split; [lia|done]).

Lemma timed_kept_get doNotNew e : respects timed_kept (get doNotNew e).
Proof.
  run_cases; timed_cases.
  all: match goal with
       | H : (?dt >? 0) = false |- _ =>
           rewrite Z.gtb_ltb in H; apply Z.ltb_ge in H; lia
       end.
Qed.

Lemma timed_kept_operations : operations_respect timed_kept.
Proof. unfold operations_respect. split_and!; run_cases; timed_cases. Qed.

Lemma timed_kept_methods : methods_respect timed_kept.
Proof.
  apply (methods_from_operations _ timed_kept_refl timed_kept_trans
           timed_kept_operations); intros.
  - apply timed_kept_get.
  - run_cases; timed_cases.
  - run_cases; timed_cases.
Qed.

(** X9.  On a pool whose [DialTimeout] is at least 1, as [NewThriftPool]
    and [SetDialTimeout] leave it, no sequence of calls asks the transport
    for a socket without a timeout: every dial goes through
    [NewTSocketTimeout]. *)
Theorem calls_dial_with_timeout sc ks w :
  1 ≤ DialTimeout (pool w) →
  1 ≤ DialTimeout (pool (calls sc ks w))
  ∧ List.filter is_untimed_dial (trace (calls sc ks w))
    = List.filter is_untimed_dial (trace w).
Proof.
  apply (calls_respect _ timed_kept_refl timed_kept_trans
           timed_kept_methods).
  - intros e. apply timed_kept_get.
  - intros sc2. apply (respects_ThriftPool_Close _ timed_kept_refl
                         timed_kept_trans timed_kept_operations).
Qed.

(** ** Invariants of the worlds *)

Lemma keeps_refl P w : keeps P w w.
Proof. by unfold keeps. Qed.

Lemma keeps_trans P w1 w2 w3 : keeps P w1 w2 → keeps P w2 w3 → keeps P w1 w3.
Proof. unfold keeps. auto. Qed.

(** *** The endpoint of the connections *)

Ltac endpoint_cases :=
  unfold keeps, endpoints_ok; cbn [pool heap Endpoint];
  try done;
  let Hok := fresh "Hok" in
  let Hl := fresh "Hl" in
  intros Hok l' c' Hl;
  try (apply list_lookup_insert_Some in Hl as [(<- & <- & _)|[_ Hl]]);
  try (apply lookup_app_Some in Hl as [Hl|[_ Hl]]);
  try (apply list_lookup_singleton_Some in Hl as [_ <-]);
  cbn [with_conn_closed with_usedTime conn_Endpoint];
  eauto;
  try match goal with
      | H : _ !! _ = Some _ |- _ => by apply (Hok _ _ H)
      end.

Lemma endpoints_ok_get doNotNew e :
  respects (keeps endpoints_ok) (get doNotNew e).
Proof. run_cases; endpoint_cases. Qed.

Lemma endpoints_ok_operations : operations_respect (keeps endpoints_ok).
Proof. unfold operations_respect. split_and!; run_cases; endpoint_cases. Qed.

Lemma endpoints_ok_methods : methods_respect (keeps endpoints_ok).
Proof.
  apply (methods_from_operations _ (keeps_refl _) (keeps_trans _)
           endpoints_ok_operations); intros.
  - apply endpoints_ok_get.
  - run_cases; endpoint_cases.
  - run_cases; endpoint_cases.
Qed.

Lemma calls_keep_endpoints sc ks w :
  endpoints_ok w → endpoints_ok (calls sc ks w).
Proof.
  apply (calls_respect _ (keeps_refl _) (keeps_trans _)
           endpoints_ok_methods).
  - intros e. apply endpoints_ok_get.
  - intros sc2. apply (respects_ThriftPool_Close _ (keeps_refl _)
                         (keeps_trans _) endpoints_ok_operations).
Qed.

(** *** The pointers in the free-queue *)

Lemma queued_conn_kept w w' p :
  closed_kept w w' → queued_conn w p → queued_conn w' p.
Proof.
  intros Hk. destruct p as [l|]; [|done]. intros [c Hl].
  destruct (Hk l c Hl) as (c' & Hl' & _). by exists c'.
Qed.

(** The queue stays valid when the connections stay and every pointer of
    the new queue was in the old one or points to a connection. *)
Lemma queue_valid_kept w w' :
  closed_kept w w' →
  (∀ p, p ∈ chan_buf (clients (pool w')) →
        p ∈ chan_buf (clients (pool w)) ∨ queued_conn w' p) →
  queue_valid w → queue_valid w'.
Proof.
  unfold queue_valid. rewrite !Forall_forall. intros Hk Hin Hv p Hp.
  destruct (Hin p Hp) as [Hold|Hnew]; [|done].
  eapply queued_conn_kept; eauto.
Qed.

Lemma get_queue doNotNew e w :
  let w' := fst (get doNotNew e w) in
  chan_buf (clients (pool w')) = chan_buf (clients (pool w))
  ∨ ∃ p, chan_buf (clients (pool w)) = p :: chan_buf (clients (pool w')).
Proof.
  destruct w as [[ep dt idt ms ins u i ast cl [cap buf clo]] h tr].
  cbv zeta. destruct buf as [|p rest], clo, doNotNew;
    unfold_methods; simpl; eauto;
    destruct (_ >? _); simpl; eauto;
    destruct (get_dial e); simpl; eauto.
Qed.

Lemma queue_valid_get doNotNew e :
  respects (keeps queue_valid) (get doNotNew e).
Proof.
  intros w. unfold keeps. apply queue_valid_kept; [apply never_reopens_get|].
  intros p Hp. left.
  destruct (get_queue doNotNew e w) as [Heq|[p' Heq]]; rewrite Heq in *;
    [done|]. by apply elem_of_cons; right.
Qed.

Lemma queue_valid_put sc p doNotNew e :
  respects (keeps queue_valid) (put sc p doNotNew e).
Proof.
  intros w. unfold keeps. apply queue_valid_kept; [apply never_reopens_put|].
  intros q Hq.
  destruct (put_queue sc p doNotNew e w) as (_ & _ & _ & [[Heq _]|Happ]).
  - left. by rewrite <- Heq.
  - destruct Happ as (l & c & -> & Hl & _ & _ & _ & Hbuf & _).
    rewrite Hbuf in Hq. apply elem_of_app in Hq as [Hq|Hq]; [by left|].
    apply list_elem_of_singleton in Hq as ->. right. by exists c.
Qed.

Lemma queue_valid_same_pool (m : M unit) :
  never_reopens m → (∀ w, pool (fst (m w)) = pool w) →
  respects (keeps queue_valid) m.
Proof.
  intros Hk Hpool w. unfold keeps. apply queue_valid_kept; [apply Hk|].
  intros p Hp. left. by rewrite Hpool in Hp.
Qed.

(** [Close] of an open pool is the drain of its closed free-queue. *)
Lemma ThriftPool_Close_drains sc ep dt idt ms ins u i ast cap buf h tr :
  ThriftPool_Close sc
    (mkWorld (mkPool ep dt idt ms ins u i ast 0 (mkChan cap buf false)) h tr)
  = drain sc buf
      (mkWorld (mkPool ep dt idt ms ins u i ast 1 (mkChan cap buf true)) h tr).
Proof. reflexivity. Qed.

Lemma ThriftPool_Close_again sc w :
  closed (pool w) ≠ 0 → ThriftPool_Close sc w = (w, Ret tt).
Proof.
  destruct w as [[ep dt idt ms ins u i ast cl [cap buf clo]] h tr].
  cbn [pool closed]. intros Hcl. apply Z.eqb_neq in Hcl.
  unfold ThriftPool_Close, bind, get_pool, ret. cbn [pool closed].
  by rewrite Hcl.
Qed.

Lemma ThriftPool_Close_closed_queue sc w :
  closed (pool w) = 0 →
  chan_closed (clients (pool w)) = true →
  ThriftPool_Close sc w =
    (mkWorld (with_closed 1 (pool w)) (heap w) (trace w), Panic).
Proof.
  destruct w as [[ep dt idt ms ins u i ast cl [cap buf clo]] h tr].
  cbn [pool closed clients chan_closed]. intros -> ->. reflexivity.
Qed.

Lemma queue_valid_ThriftPool_Close sc :
  respects (keeps queue_valid) (ThriftPool_Close sc).
Proof.
  intros w. unfold keeps. intros Hv.
  destruct (decide (closed (pool w) = 0)) as [Hcl|Hcl].
  2:{ by rewrite ThriftPool_Close_again. }
  destruct (chan_closed (clients (pool w))) eqn:Hq.
  { by rewrite ThriftPool_Close_closed_queue. }
  destruct w as [[ep dt idt ms ins u i ast cl [cap buf clo]] h tr].
  cbn [pool closed clients chan_closed] in Hcl, Hq. subst cl clo.
  rewrite ThriftPool_Close_drains.
  match goal with |- context [drain sc buf ?w] => set (w1 := w) end.
  destruct (drain_all sc buf w1) as (w' & Hdrain & Hempty & _); [done| |].
  { eapply Forall_impl; [exact Hv|]. by intros [l|]. }
  rewrite Hdrain. unfold queue_valid. cbn [fst]. by rewrite Hempty.
Qed.

Lemma UpdateUsedTime_pool p now w :
  pool (fst (UpdateUsedTime p now w)) = pool w.
Proof.
  unfold UpdateUsedTime, bind, store, ret. destruct p as [l|]; [|done].
  by destruct (heap w !! l).
Qed.

Lemma queue_valid_methods : methods_respect (keeps queue_valid).
Proof.
  unfold methods_respect. split_and!; intros.
  - apply queue_valid_get.
  - apply queue_valid_put.
  - intros w. unfold keeps. apply queue_valid_kept; [apply never_reopens_ThriftConn_Close|].
    intros q Hq. left. by rewrite ThriftConn_Close_pool in Hq.
  - intros w. unfold keeps. apply queue_valid_kept; [apply never_reopens_UpdateUsedTime|].
    intros q Hq. left. by rewrite UpdateUsedTime_pool in Hq.
  - run_cases; unfold keeps, queue_valid; cbn; intros Hv;
      (eapply Forall_impl; [exact Hv|by intros [?|]]).
  - run_cases; unfold keeps, queue_valid; cbn; intros Hv;
      (eapply Forall_impl; [exact Hv|by intros [?|]]).
Qed.

Lemma calls_keep_queue_valid sc ks w :
  queue_valid w → queue_valid (calls sc ks w).
Proof.
  apply (calls_respect _ (keeps_refl _) (keeps_trans _) queue_valid_methods).
  - intros e. apply queue_valid_get.
  - apply queue_valid_ThriftPool_Close.
Qed.

(** ** What [Get] hands out *)

(** A connection that [get] returns is in the heap, carries the endpoint
    of the pool, and is counted in [used]. *)
Lemma get_returns_conn doNotNew e w w' (l : nat) err :
  get doNotNew e w = (w', Ret (Some l, err)) →
  queue_valid w →
  endpoints_ok w →
  (∃ c, heap w' !! l = Some c ∧ conn_Endpoint c = Endpoint (pool w))
  ∧ err = None
  ∧ used (pool w') = add32 (used (pool w)) 1.
Proof.
  destruct w as [[ep dt idt ms ins u i ast cl [cap buf clo]] h tr].
  unfold queue_valid, endpoints_ok. cbn [pool heap clients chan_buf Endpoint].
  intros Hget Hv Hok. revert Hget.
  destruct buf as [|p rest].
  - destruct clo, doNotNew; unfold_methods; simpl; try (intros; by simplify_eq);
      destruct (_ >? _); simpl; try (intros; by simplify_eq);
      destruct (get_dial e); simpl; intros; simplify_eq.
    split_and!; try done. exists (mkConn ep false s (get_born e)).
    split; [|done]. rewrite lookup_app_r by done. by rewrite Nat.sub_diag.
  - apply Forall_cons in Hv as [Hp _].
    unfold_methods; simpl; intros; simplify_eq.
    destruct Hp as [c Hl]. split_and!; try done. exists c. eauto.
Qed.

(** X10.  On a pool whose connections carry its endpoint and whose
    free-queue holds connections only, as on a new pool, this stays so
    through every sequence of calls, and a connection that [Get] then returns
    exists, carries the endpoint of the pool and comes without an error. *)
Theorem Get_returns_pool_endpoint sc ks e w w' (l : nat) err :
  endpoints_ok w →
  queue_valid w →
  Get e (calls sc ks w) = (w', Ret (Some l, err)) →
  endpoints_ok (calls sc ks w) ∧ queue_valid (calls sc ks w)
  ∧ err = None
  ∧ ∃ c, heap w' !! l = Some c ∧ conn_Endpoint c = Endpoint (pool w).
Proof.
  intros Hok Hv Hget. unfold Get in Hget.
  pose proof (calls_keep_endpoints sc ks w Hok) as Hok'.
  pose proof (calls_keep_queue_valid sc ks w Hv) as Hv'.
  destruct (get_returns_conn _ _ _ _ _ _ Hget Hv' Hok')
    as ((c & Hl & Hep) & Herr & _).
  split_and!; try done. exists c. split; [done|]. rewrite Hep.
  apply (calls_config_kept sc ks w).
Qed.

(** X11.  [Get] and [Put] pair up: when [Get] returns a connection, the
    [Put] of that connection leaves [used] at the value it had before the
    [Get], whatever [Put] does with the connection. *)
Theorem Get_Put_restores_used sc eg ep w w' (l : nat) err :
  int32_ok (used (pool w)) →
  queue_valid w →
  Get eg w = (w', Ret (Some l, err)) →
  (∃ r, snd (Put sc (Some l) ep w') = Ret r)
  ∧ used (pool (fst (Put sc (Some l) ep w'))) = used (pool w).
Proof.
  intros Hu Hv Hget. unfold Put. rewrite put_used.
  assert (is_Some (heap w' !! l) ∧ used (pool w') = add32 (used (pool w)) 1)
    as [Hl ->].
  { revert Hget. unfold Get.
    destruct w as [[ep0 dt idt ms ins u i ast cl [cap buf clo]] h tr].
    unfold queue_valid in Hv. cbn [pool clients chan_buf] in Hv.
    destruct buf as [|p rest].
    - destruct clo; unfold_methods; simpl; try (intros; by simplify_eq);
        destruct (_ >? _); simpl; try (intros; by simplify_eq);
        destruct (get_dial eg); simpl; intros; simplify_eq.
      split; [|done]. cbn [heap]. rewrite lookup_app_r by done.
      rewrite Nat.sub_diag. by eexists.
    - apply Forall_cons in Hv as [Hp _].
      unfold_methods; simpl; intros; simplify_eq. by split. }
  split; [by apply put_valid_returns|by apply add32_inc_dec].
Qed.

(** ** [idle] counts the free-queue *)

Lemma queue_counted_get doNotNew e :
  respects (keeps queue_counted) (get doNotNew e).
Proof.
  intros w. unfold keeps, queue_counted. intros (Hq & Hidle & Hlen & Hcap).
  destruct (chan_buf (clients (pool w))) as [|p rest] eqn:Hbuf.
  - destruct w as [[ep dt idt ms ins u i ast cl [cap buf clo]] h tr].
    cbn [pool clients chan_closed chan_buf chan_cap idle] in *. subst.
    destruct doNotNew; unfold_methods; simpl; [done|].
    destruct (_ >? _); simpl; [done|]. by destruct (get_dial e).
  - rewrite (get_from_queue _ _ _ _ _ Hbuf).
    cbn [fst pool clients chan_closed chan_buf chan_cap idle with_idle
         with_clients with_used with_assessTime].
    cbn [length] in *. split_and!; try done; try lia.
    unfold add32. rewrite wrap32_id; [lia|]. unfold int32_ok.
    change (2 ^ 31) with 2147483648 in *. lia.
Qed.

Lemma queue_counted_put sc p doNotNew e :
  respects (keeps queue_counted) (put sc p doNotNew e).
Proof.
  intros w. unfold keeps, queue_counted. intros (Hq & Hidle & Hlen & Hcap).
  assert (int32_ok (idle (pool w))) as Hok.
  { unfold int32_ok. change (2 ^ 31) with 2147483648 in *. lia. }
  destruct (put_queue sc p doNotNew e w)
    as (_ & -> & -> & [[-> Hi]|Happ]).
  - rewrite (add32_inc_dec _ Hok) in Hi. by destruct Hi as [-> | ->].
  - destruct Happ as (l & c & _ & _ & _ & _ & Hroom & -> & -> & _).
    rewrite length_app. cbn [length]. split_and!; try done; try lia.
    unfold add32. rewrite wrap32_id; [lia|]. unfold int32_ok in *.
    change (2 ^ 31) with 2147483648 in *. lia.
Qed.

Lemma queue_counted_methods : methods_respect (keeps queue_counted).
Proof.
  unfold methods_respect. split_and!; intros.
  - apply queue_counted_get.
  - apply queue_counted_put.
  - intros w. unfold keeps, queue_counted.
    by rewrite ThriftConn_Close_pool.
  - intros w. unfold keeps, queue_counted. by rewrite UpdateUsedTime_pool.
  - run_cases; unfold keeps, queue_counted; cbn; done.
  - run_cases; unfold keeps, queue_counted; cbn; done.
Qed.

Lemma open_calls_keep_queue_counted sc ks w :
  Forall (λ k, k ≠ CallPoolClose) ks →
  queue_counted w → queue_counted (calls sc ks w).
Proof.
  intros Hks.
  apply (open_calls_respect _ (keeps_refl _) (keeps_trans _)
           queue_counted_methods); [|done].
  intros e. apply queue_counted_get.
Qed.

(** X12.  While the pool is not closed, [idle] is the number of
    connections in the free-queue: on a pool where this holds (the queue
    open, its length within a capacity that fits an [int32]), it holds after
    every sequence of [Get], [Put], rounds of the Reclaimer, closings of
    connections and settings of the timeouts, and the queue never grows
    beyond its capacity. *)
Theorem calls_keep_idle_count sc ks w :
  Forall (λ k, k ≠ CallPoolClose) ks →
  queue_counted w →
  let w2 := calls sc ks w in
  chan_closed (clients (pool w2)) = false
  ∧ idle (pool w2) = Z.of_nat (length (chan_buf (clients (pool w2))))
  ∧ Z.of_nat (length (chan_buf (clients (pool w2))))
    ≤ chan_cap (clients (pool w2))
  ∧ chan_cap (clients (pool w2)) < 2 ^ 31.
Proof. apply open_calls_keep_queue_counted. Qed.

(** ** The pool after [Close] *)

Lemma shut_get doNotNew e : respects (keeps shut) (get doNotNew e).
Proof.
  intros w. unfold keeps, shut.
  destruct w as [[ep dt idt ms ins u i ast cl [cap buf clo]] h tr].
  cbn [pool clients chan_closed chan_buf closed]. intros (-> & -> & ->).
  done.
Qed.

Lemma shut_put sc p doNotNew e : respects (keeps shut) (put sc p doNotNew e).
Proof.
  intros w. unfold keeps, shut. intros (Hcl & Hq & Hbuf).
  destruct (put_queue sc p doNotNew e w)
    as (-> & _ & -> & [[-> _]|Happ]); [done|].
  destruct Happ as (l & c & _ & _ & _ & Hopen & _). congruence.
Qed.

Lemma shut_methods : methods_respect (keeps shut).
Proof.
  unfold methods_respect. split_and!; intros.
  - apply shut_get.
  - apply shut_put.
  - intros w. unfold keeps, shut. by rewrite ThriftConn_Close_pool.
  - intros w. unfold keeps, shut. by rewrite UpdateUsedTime_pool.
  - run_cases; unfold keeps, shut; cbn; done.
  - run_cases; unfold keeps, shut; cbn; done.
Qed.

Lemma calls_keep_shut sc ks w : shut w → shut (calls sc ks w).
Proof.
  apply (calls_respect _ (keeps_refl _) (keeps_trans _) shut_methods).
  - intros e. apply shut_get.
  - intros sc2 w2. unfold keeps. intros Hs.
    rewrite ThriftPool_Close_again; [done|]. destruct Hs as (-> & _). done.
Qed.

(** X13.  After [Close] the pool stays as [Close] left it, whatever is
    called: the flag set, the free-queue closed and empty.  A [Get] then
    returns neither a connection nor an error; it dials nothing and creates
    nothing. *)
Theorem Get_after_Close_returns_nil sc ks e w :
  shut w →
  let w1 := calls sc ks w in
  shut w1
  ∧ snd (Get e w1) = Ret (None, None)
  ∧ trace (fst (Get e w1)) = trace w1
  ∧ heap (fst (Get e w1)) = heap w1.
Proof.
  intros Hs w1. pose proof (calls_keep_shut sc ks w Hs) as Hs1.
  fold w1 in Hs1. split; [done|]. destruct Hs1 as (_ & Hq & Hbuf).
  unfold Get. by rewrite (get_closed_queue _ _ _ Hbuf Hq).
Qed.

(** ** [Put] at a later second *)

(** X14.  On a pool where [idle] counts the free-queue, the capacity of
    the queue is [MaxSize] and [InitSize] does not exceed [MaxSize], as
    [NewThriftPool] builds it from a positive [maxSize], the [Put] of a
    connection whose last use lies in an earlier Unix second never fails:
    when the queue is full the connection is evicted for over-capacity before
    the queue is tried. *)
Theorem Put_later_second_never_fails sc (l : nat) c e w :
  queue_counted w →
  chan_cap (clients (pool w)) = MaxSize (pool w) →
  InitSize (pool w) ≤ MaxSize (pool w) →
  MaxSize (pool w) < 2 ^ 31 - 1 →
  heap w !! l = Some c →
  Unix (usedTime c) < Unix (put_clock e) →
  snd (Put sc (Some l) e w) = Ret None.
Proof.
  intros (Hq & Hidle & Hlen & Hcap) Hms Hinit Hmax Hl Hlater. unfold Put.
  destruct (decide (closed (pool w) = 1)) as [Hcl|Hcl].
  { by rewrite (put_closed_pool _ _ c). }
  destruct (conn_closed c) eqn:Hc.
  { by rewrite (put_closed_conn _ _ c). }
  rewrite (put_open _ _ c) by done. cbv zeta.
  destruct (evicts _ _ _ _) eqn:Hev; [done|].
  rewrite (put_select_recover _ _ (stamped false e c))
    by (by rewrite ?stamped_closed; try apply put_counted_lookup).
  cbn [put_counted put_entered pool clients with_idle with_used
       with_assessTime chan_closed chan_buf chan_cap]. rewrite Hq.
  destruct (Z.ltb_spec (Z.of_nat (length (chan_buf (clients (pool w)))))
              (chan_cap (clients (pool w)))) as [Hroom|Hfull]; [done|].
  exfalso. revert Hev. unfold evicts.
  assert (add32 (idle (pool w)) 1 = MaxSize (pool w) + 1) as ->.
  { unfold add32. rewrite wrap32_id; [lia|]. unfold int32_ok.
    change (2 ^ 31) with 2147483648 in *. lia. }
  rewrite (gtb_true (MaxSize (pool w) + 1) (InitSize (pool w))) by lia.
  rewrite (gtb_true _ _ Hlater).
  rewrite (gtb_true (MaxSize (pool w) + 1) (MaxSize (pool w))) by lia.
  by rewrite orb_true_r.
Qed.

(** ** A round of the Reclaimer, alone with the pool *)

Lemma reclaim_loop_balanced sc n i env w :
  queue_counted w →
  queue_valid w →
  int32_ok (used (pool w)) →
  (n ≤ length (chan_buf (clients (pool w))))%nat →
  ∃ w',
    reclaim_loop sc n i env w = (w', Ret tt)
    ∧ used (pool w') = used (pool w)
    ∧ queue_counted w' ∧ queue_valid w'.
Proof.
  revert i w. induction n as [|n IH]; intros i w Hc Hv Hu Hn;
    cbn [reclaim_loop].
  { exists w. by unfold ret. }
  destruct (chan_buf (clients (pool w))) as [|p rest] eqn:Hbuf;
    [cbn in Hn; lia|].
  assert (queued_conn w p) as Hp.
  { unfold queue_valid in Hv. rewrite Hbuf in Hv.
    by apply Forall_cons in Hv as [? _]. }
  destruct p as [l|]; [|done].
  pose proof (queue_counted_get true (fst (env i)) w Hc) as Hc1.
  pose proof (queue_valid_get true (fst (env i)) w Hv) as Hv1.
  unfold bind at 1. rewrite (get_from_queue _ _ _ _ _ Hbuf) in *.
  cbn [fst] in *.
  match type of Hc1 with queue_counted ?w => set (w1 := w) in * end.
  pose proof (queue_counted_put sc (Some l) true (snd (env i)) w1 Hc1) as Hc2.
  pose proof (queue_valid_put sc (Some l) true (snd (env i)) w1 Hv1) as Hv2.
  pose proof (put_used sc (Some l) true (snd (env i)) w1) as Hu2.
  destruct (put_valid_returns sc (Some l) true (snd (env i)) w1) as [r Hr];
    [done|].
  destruct (put_queue sc (Some l) true (snd (env i)) w1)
    as (_ & _ & _ & Hq2).
  unfold bind.
  destruct (put sc (Some l) true (snd (env i)) w1) as [w2 o] eqn:Hput.
  cbn [fst snd] in *. subst o.
  assert (used (pool w2) = used (pool w)) as Hused.
  { rewrite Hu2. subst w1. cbn [pool used with_idle with_clients with_used].
    by apply add32_inc_dec. }
  destruct (IH (S i) w2) as (w' & Hloop & Hu' & Hc' & Hv'); try done.
  { by rewrite Hused. }
  { assert (length rest ≤ length (chan_buf (clients (pool w2))))%nat.
    { destruct Hq2 as [[-> _]|(? & ? & _ & _ & _ & _ & _ & -> & _)];
        subst w1; cbn [pool clients chan_buf with_idle with_clients];
        rewrite ?length_app; lia. }
    cbn [length] in Hn. lia. }
  exists w'. rewrite Hloop. split_and!; try done. congruence.
Qed.

(** X15.  A round of the Reclaimer that no other call interleaves with
    balances its books: on a pool where [idle] counts the free-queue and the
    queue holds connections, the round returns, every probe finds a
    connection, and [used] is afterwards what it was before; [idle] still
    counts the queue. *)
Theorem releaseIdleConn_round_keeps_used sc env w :
  queue_counted w →
  queue_valid w →
  int32_ok (used (pool w)) →
  let w2 := fst (releaseIdleConn_round sc env w) in
  (∃ b, snd (releaseIdleConn_round sc env w) = Ret b)
  ∧ used (pool w2) = used (pool w)
  ∧ queue_counted w2 ∧ queue_valid w2.
Proof.
  intros Hc Hv Hu.
  unfold releaseIdleConn_round, GetInitSize, GetIdle, GetUsed, bind,
    get_pool, ret. cbn [fst snd].
  destruct (closed (pool w) =? 1); [by eauto|].
  destruct (_ && _); [|by eauto].
  destruct (reclaim_loop_balanced sc (Z.to_nat (idle (pool w))) 0 env w)
    as (w' & -> & Hu' & Hc' & Hv'); try done.
  { destruct Hc as (_ & -> & _). by rewrite Nat2Z.id. }
  cbn. eauto.
Qed.

(** ** [Close], twice *)

Lemma drain_closed_flag sc q w :
  closed (pool (fst (drain sc q w))) = closed (pool w).
Proof.
  revert w. induction q as [|p q IH]; intros w; cbn [drain]; [done|].
  unfold bind at 1. cbn [set_pool]. destruct p as [l|].
  - unfold bind.
    match goal with
    | |- context [ThriftConn_Close sc (Some l) ?w0] =>
        pose proof (ThriftConn_Close_pool sc (Some l) w0) as Hp;
        destruct (ThriftConn_Close sc (Some l) w0) as [w1 [r|]]
    end; cbn [fst] in *.
    + rewrite IH, Hp. done.
    + by rewrite Hp.
  - by rewrite IH.
Qed.

(** X16.  A [Close] after a [Close] does nothing and returns: whatever
    the first [Close] met, it has set the flag, and the second one stops at
    the flag; in particular the free-queue is not closed a second time. *)
Theorem ThriftPool_Close_twice sc sc2 w :
  let w1 := fst (ThriftPool_Close sc w) in
  ThriftPool_Close sc2 w1 = (w1, Ret tt).
Proof.
  intros w1. apply ThriftPool_Close_again. subst w1.
  destruct (decide (closed (pool w) = 0)) as [Hcl|Hcl].
  2:{ by rewrite ThriftPool_Close_again. }
  destruct (chan_closed (clients (pool w))) eqn:Hq.
  { by rewrite ThriftPool_Close_closed_queue. }
  destruct w as [[ep dt idt ms ins u i ast cl [cap buf clo]] h tr].
  cbn [pool closed clients chan_closed] in Hcl, Hq. subst cl clo.
  rewrite ThriftPool_Close_drains, drain_closed_flag. done.
Qed.

(** ** The [Close] of part_000 *)

Lemma Part000_drain_loop_runs_on sc fuel w :
  chan_closed (clients (pool w)) = true →
  Forall (valid_ptr w) (chan_buf (clients (pool w))) →
  Part000.drain_loop sc fuel w = None.
Proof.
  revert w. induction fuel as [|fuel IH]; intros w Hq Hv; [done|].
  destruct w as [[ep dt idt ms ins u i ast cl [cap buf clo]] h tr].
  cbn [pool clients chan_closed chan_buf] in Hq, Hv. subst clo.
  cbn [Part000.drain_loop]. destruct buf as [|p rest].
  - unfold_methods. simpl. by apply IH.
  - apply Forall_cons in Hv as [Hp Hv].
    unfold try_recv, bind, get_pool, set_pool, ret. simpl.
    destruct p as [l|].
    + destruct Hp as [c Hl]. cbn [heap] in Hl.
      match goal with
      | |- context [ThriftConn_Close sc (Some l) ?w0] => set (w1 := w0)
      end.
      pose proof (ThriftConn_Close_pool sc (Some l) w1) as Hpool.
      pose proof (never_reopens_ThriftConn_Close sc (Some l) w1) as Hk.
      assert (∃ w2 r, ThriftConn_Close sc (Some l) w1 = (w2, Ret r))
        as (w2 & r & Hclose).
      { destruct (conn_closed c) eqn:Hc.
        - rewrite (ThriftConn_Close_closed _ _ c) by done. eauto.
        - rewrite (ThriftConn_Close_open _ _ c) by done. eauto. }
      rewrite Hclose in *. cbn [fst] in *. apply IH.
      * by rewrite Hpool.
      * rewrite Hpool. cbn [w1 pool clients chan_buf].
        eapply Forall_impl; [exact Hv|]. intros p Hp.
        eapply valid_ptr_kept; [exact Hk|]. by destruct p.
    + apply IH; [done|]. cbn [pool clients chan_buf].
      eapply Forall_impl; [exact Hv|]. by intros [?|].
Qed.

(** X17.  The [Close] of part_000 returns at once on a pool that is
    closed already; on an open pool it never returns: the closed free-queue
    always has something to receive, the zero value once it is empty, so
    the [default] branch that holds the [return] is never taken, however
    long the loop runs. *)
Theorem Part000_Close_never_returns sc w :
  (closed (pool w) ≠ 0 → ∀ fuel, Part000.Close sc fuel w = Some (w, Ret tt))
  ∧ (closed (pool w) = 0 →
     chan_closed (clients (pool w)) = false →
     Forall (valid_ptr w) (chan_buf (clients (pool w))) →
     ∀ fuel, Part000.Close sc fuel w = None).
Proof.
  split.
  - intros Hcl fuel. unfold Part000.Close. apply Z.eqb_neq in Hcl.
    by rewrite Hcl.
  - intros Hcl Hq Hv fuel.
    destruct w as [[ep dt idt ms ins u i ast cl [cap buf clo]] h tr].
    cbn [pool closed clients chan_closed chan_buf] in Hcl, Hq, Hv.
    subst cl clo. unfold Part000.Close. simpl.
    apply Part000_drain_loop_runs_on; [done|].
    cbn [pool clients chan_buf]. eapply Forall_impl; [exact Hv|].
    by intros [?|].
Qed.

(** ** The pool [NewThriftPool] makes *)

(** X18.  With a positive [maxSize] and an [initSize] whose double fits an
    [int32], the pool has [InitSize] at most [MaxSize], and [MaxSize] is at
    least twice the [initSize] given. *)
Theorem NewThriftPool_InitSize_le_MaxSize endpoint dialTimeout idleTimeout
    maxSize initSize p :
  1 ≤ maxSize →
  - 2 ^ 30 ≤ initSize < 2 ^ 30 →
  NewThriftPool endpoint dialTimeout idleTimeout maxSize initSize = Ret p →
  InitSize p ≤ MaxSize p ∧ 2 * initSize ≤ MaxSize p ∧ maxSize ≤ MaxSize p.
Proof.
  intros Hmax Hi H.
  assert (mul32 initSize 2 = 2 * initSize) as Hmul.
  { unfold mul32. rewrite wrap32_id; [lia|]. unfold int32_ok.
    change (2 ^ 31) with 2147483648. change (2 ^ 30) with 1073741824 in Hi.
    lia. }
  revert H. unfold NewThriftPool, make_chan. rewrite Hmul.
  destruct (Z.ltb_spec maxSize 1), (Z.leb_spec maxSize (2 * initSize)),
    (Z.ltb_spec initSize 1); try lia;
    case_match; intros; simplify_eq; cbn; try lia.
Qed.

(** X19.  The world of a new pool satisfies what the calls keep: [idle]
    counts the (empty) free-queue, whose capacity is [MaxSize]; the queue
    holds connections only; every connection carries the endpoint; both
    timeouts are at least 1; nothing has been dialled. *)
Theorem NewThriftPool_establishes_invariants endpoint dialTimeout idleTimeout
    maxSize initSize p :
  int32_ok maxSize →
  NewThriftPool endpoint dialTimeout idleTimeout maxSize initSize = Ret p →
  let w := mkWorld p [] [] in
  queue_counted w ∧ queue_valid w ∧ endpoints_ok w
  ∧ chan_cap (clients p) = MaxSize p
  ∧ 1 ≤ DialTimeout p ∧ 1 ≤ IdleTimeout p
  ∧ int32_ok (used p).
Proof.
  intros Hmax H.
  pose proof (NewThriftPool_MaxSize_pos _ _ _ _ _ _ H) as (? & ? & ? & ?).
  assert (MaxSize p < 2 ^ 31 ∧ clients p = mkChan (MaxSize p) [] false
          ∧ idle p = 0 ∧ used p = 0) as (Hlt & Hc & Hi & Hu).
  { clear -Hmax H. revert H. unfold NewThriftPool, make_chan.
    pose proof (wrap32_ok (initSize * 2)) as Hw. unfold int32_ok in *.
    change (wrap32 (initSize * 2)) with (mul32 initSize 2) in Hw.
    change (2 ^ 31) with 2147483648 in *.
    match goal with
    | |- context [if ?m <? 0 then None else _] =>
        set (M := m); assert (M < 2147483648) as HM
    end.
    { subst M.
      destruct (Z.ltb_spec maxSize 1),
        (Z.leb_spec maxSize (mul32 initSize 2)); lia. }
    destruct (M <? 0); [done|]. intros [= <-]. cbn. done. }
  unfold queue_counted, queue_valid, endpoints_ok.
  cbn [pool heap]. rewrite Hc, Hi, Hu. cbn.
  change (2 ^ 31) with 2147483648 in *.
  unfold int32_ok. change (2 ^ 31) with 2147483648.
  split_and!; try done; try lia.
Qed.

(** ** A connection closed by its user, and a full free-queue *)

(** X20.  [conn.Close()] followed by [pool.Put(conn)] for an open
    connection, as the example client does when its call has failed: the
    socket is closed once, by the [Close]; [Put] returns [nil] whether the
    pool is open or closed, does not queue the connection and leaves [idle]
    alone; [used] is decremented. *)
Theorem Close_then_Put_discards sc sc2 (l : nat) c e w :
  heap w !! l = Some c →
  conn_closed c = false →
  let w1 := fst (ThriftConn_Close sc (Some l) w) in
  let w2 := fst (Put sc2 (Some l) e w1) in
  snd (Put sc2 (Some l) e w1) = Ret None
  ∧ heap w2 = <[l := with_conn_closed true c]> (heap w)
  ∧ trace w2 = trace w ++ [EvSocketClose (client c)]
  ∧ clients (pool w2) = clients (pool w)
  ∧ idle (pool w2) = idle (pool w)
  ∧ used (pool w2) = add32 (used (pool w)) (-1).
Proof.
  intros Hl Hc. cbv zeta. rewrite (ThriftConn_Close_open _ _ _ _ Hl Hc).
  cbn [fst]. unfold Put.
  assert (heap (conn_closed_in l c w) !! l = Some (with_conn_closed true c))
    as Hl1.
  { cbn [conn_closed_in heap]. apply list_lookup_insert_eq.
    by eapply lookup_lt_Some. }
  destruct (decide (closed (pool (conn_closed_in l c w)) = 1)) as [Hcl|Hcl].
  - rewrite (put_closed_pool _ _ _ _ _ _ Hcl Hl1). by cbn.
  - rewrite (put_closed_conn _ _ _ _ _ _ Hcl Hl1) by done. by cbn.
Qed.

(** X21.  The failure of [Put]: an open connection released on an open pool
    that is not evicted and meets a full free-queue is closed, its socket
    with it, [idle] loses its increment again, the queue is as it was, and
    [Put] returns the error made of the decremented [used], [InitSize] and
    the [idle] read after the decrement. *)
Theorem Put_full_queue_fails sc (l : nat) c e w :
  closed (pool w) ≠ 1 →
  heap w !! l = Some c →
  conn_closed c = false →
  chan_closed (clients (pool w)) = false →
  chan_cap (clients (pool w))
    ≤ Z.of_nat (length (chan_buf (clients (pool w)))) →
  evicts (pool w) (add32 (idle (pool w)) 1)
    (Unix (put_clock e)) (Unix (usedTime c)) = false →
  let w' := fst (Put sc (Some l) e w) in
  snd (Put sc (Some l) e w)
    = Ret (Some (ErrPutFailed (add32 (used (pool w)) (-1)) (InitSize (pool w))
                   (add32 (add32 (idle (pool w)) 1) (-1))))
  ∧ heap w' !! l = Some (with_conn_closed true (with_usedTime (put_clock e) c))
  ∧ trace w' = trace w ++ [EvSocketClose (client c)]
  ∧ clients (pool w') = clients (pool w)
  ∧ idle (pool w') = add32 (add32 (idle (pool w)) 1) (-1)
  ∧ used (pool w') = add32 (used (pool w)) (-1).
Proof.
  intros Hcl Hl Hc Hq Hfull Hev. cbv zeta. unfold Put.
  rewrite (put_open _ _ c) by done. cbv zeta. rewrite Hev.
  rewrite (put_select_recover _ _ (stamped false e c))
    by (by rewrite ?stamped_closed; try apply put_counted_lookup).
  cbn [put_counted put_entered pool with_idle with_used with_assessTime
       clients]. rewrite Hq.
  destruct (Z.ltb_spec (Z.of_nat (length (chan_buf (clients (pool w)))))
              (chan_cap (clients (pool w)))); [lia|].
  cbn. split_and!; try done.
  rewrite list_insert_insert_eq. apply list_lookup_insert_eq.
  by eapply lookup_lt_Some.
Qed.

(** ** The access time *)

Lemma get_assessTime doNotNew e w :
  assessTime (pool (fst (get doNotNew e w))) = Unix (get_now e).
Proof.
  destruct (chan_buf (clients (pool w))) as [|p rest] eqn:Hbuf.
  - destruct w as [[ep dt idt ms ins u i ast cl [cap buf clo]] h tr].
    cbn [pool clients chan_buf] in Hbuf. subst buf.
    destruct clo, doNotNew; unfold_methods; simpl; try done;
      destruct (_ >? _); simpl; try done; by destruct (get_dial e).
  - by rewrite (get_from_queue _ _ _ _ _ Hbuf).
Qed.

Lemma put_assessTime sc p doNotNew e w :
  assessTime (pool (fst (put sc p doNotNew e w))) = Unix (put_now e).
Proof.
  destruct (deref w p) as [c|] eqn:Hp.
  2:{ by rewrite put_invalid. }
  destruct p as [l|]; [|done]. cbn [deref] in Hp.
  destruct (decide (closed (pool w) = 1)) as [Hcl|Hcl].
  { rewrite (put_closed_pool _ _ c) by done. by destruct (conn_closed c). }
  destruct (conn_closed c) eqn:Hc.
  { by rewrite (put_closed_conn _ _ c). }
  rewrite (put_open _ _ c) by done. cbv zeta.
  destruct (evicts _ _ _ _); [done|].
  rewrite (put_select_recover _ _ (stamped doNotNew e c))
    by (by rewrite ?stamped_closed; try apply put_counted_lookup).
  by repeat case_match.
Qed.

Lemma reclaim_loop_S sc n i env :
  reclaim_loop sc (S n) i env
  = bind (get true (fst (env i)))
      (λ r, match fst r with
            | None => ret tt
            | Some _ =>
                bind (put sc (fst r) true (snd (env i)))
                  (λ _, reclaim_loop sc n (S i) env)
            end).
Proof. reflexivity. Qed.

Lemma reclaim_loop_assessTime sc n i env w :
  queue_counted w →
  queue_valid w →
  (S n ≤ length (chan_buf (clients (pool w))))%nat →
  assessTime (pool (fst (reclaim_loop sc (S n) i env w)))
  = Unix (put_now (snd (env (i + n)%nat))).
Proof.
  revert i w. induction n as [|n IH]; intros i w Hc Hv Hn.
  all: destruct (chan_buf (clients (pool w))) as [|p rest] eqn:Hbuf;
    [cbn in Hn; lia|].
  all: assert (queued_conn w p) as Hp
    by (unfold queue_valid in Hv; rewrite Hbuf in Hv;
        by apply Forall_cons in Hv as [? _]).
  all: destruct p as [l|]; [|done].
  all: pose proof (queue_counted_get true (fst (env i)) w Hc) as Hc1.
  all: pose proof (queue_valid_get true (fst (env i)) w Hv) as Hv1.
  all: rewrite reclaim_loop_S; unfold bind at 1;
    rewrite (get_from_queue _ _ _ _ _ Hbuf) in *; cbn [fst] in *.
  all: match type of Hc1 with queue_counted ?w => set (w1 := w) in * end.
  all: pose proof (queue_counted_put sc (Some l) true (snd (env i)) w1 Hc1)
    as Hc2.
  all: pose proof (queue_valid_put sc (Some l) true (snd (env i)) w1 Hv1)
    as Hv2.
  all: pose proof (put_assessTime sc (Some l) true (snd (env i)) w1) as Ha.
  all: destruct (put_valid_returns sc (Some l) true (snd (env i)) w1)
    as [r Hr]; [done|].
  all: destruct (put_queue sc (Some l) true (snd (env i)) w1)
    as (_ & _ & _ & Hq2).
  all: unfold bind at 1.
  all: destruct (put sc (Some l) true (snd (env i)) w1) as [w2 o] eqn:Hput.
  all: cbn [fst snd] in *; subst o.
  - cbn. by rewrite Nat.add_0_r.
  - rewrite IH; [by rewrite Nat.add_succ_comm|done|done|].
    assert (length rest ≤ length (chan_buf (clients (pool w2))))%nat.
    { destruct Hq2 as [[-> _]|(? & ? & _ & _ & _ & _ & _ & -> & _)];
        subst w1; cbn [pool clients chan_buf with_idle with_clients];
        rewrite ?length_app; lia. }
    cbn [length] in Hn. lia.
Qed.

(** X22.  A round of the Reclaimer that reclaims refreshes the access time:
    on an open pool where [idle] counts the free-queue, exceeds [InitSize]
    and [used], and at least one connection is queued, [GetAssessTime]
    reads after the round the second of the round's last [put], though no
    caller has called [Get] or [Put]. *)
Theorem releaseIdleConn_round_refreshes_access_time sc env w :
  queue_counted w →
  queue_valid w →
  closed (pool w) ≠ 1 →
  InitSize (pool w) < idle (pool w) →
  used (pool w) < idle (pool w) →
  0 < idle (pool w) →
  let w2 := fst (releaseIdleConn_round sc env w) in
  snd (GetAssessTime w2)
  = Ret (Unix (put_now (snd (env (Z.to_nat (idle (pool w)) - 1)%nat)))).
Proof.
  intros Hc Hv Hcl Hinit Hused Hpos. cbv zeta.
  unfold releaseIdleConn_round, GetInitSize, GetIdle, GetUsed, GetAssessTime,
    bind, get_pool, ret. cbn [fst snd].
  apply Z.eqb_neq in Hcl. rewrite Hcl.
  rewrite (gtb_true _ _ Hinit). apply Z.ltb_lt in Hused. rewrite Hused.
  cbn [andb].
  destruct (Z.to_nat (idle (pool w))) as [|n] eqn:Hn; [lia|].
  assert (S n ≤ length (chan_buf (clients (pool w))))%nat as Hlen.
  { destruct Hc as (_ & Hi & _). lia. }
  pose proof (reclaim_loop_assessTime sc n 0 env w Hc Hv Hlen) as Ha.
  destruct (reclaim_loop sc (S n) 0 env w) as [w' [[]|]] eqn:Hloop;
    cbn [fst snd] in *; rewrite Ha;
    by replace (S n - 1)%nat with (0 + n)%nat by lia.
Qed.

(** ** The accessors of a connection *)

(** X23.  [UpdateUsedTime] changes the time of its connection and nothing
    else: [GetUsedTime] then reads the second [UpdateUsedTime] returned;
    the socket, the endpoint and the closed flag read as before; the other
    connections, the pool and the trace are untouched. *)
Theorem UpdateUsedTime_GetUsedTime (l : nat) c now w :
  heap w !! l = Some c →
  let w' := fst (UpdateUsedTime (Some l) now w) in
  snd (UpdateUsedTime (Some l) now w) = Ret (Unix now)
  ∧ GetUsedTime (Some l) w' = (w', Ret (Unix now))
  ∧ GetClient (Some l) w' = (w', Ret (client c))
  ∧ ThriftConn_GetEndpoint (Some l) w' = (w', Ret (conn_Endpoint c))
  ∧ IsClose (Some l) w' = (w', Ret (conn_closed c))
  ∧ (∀ l' : nat, l' ≠ l → heap w' !! l' = heap w !! l')
  ∧ pool w' = pool w ∧ trace w' = trace w.
Proof.
  intros Hl. cbv zeta.
  unfold UpdateUsedTime, GetUsedTime, GetClient, ThriftConn_GetEndpoint,
    IsClose, bind, store, load, ret. rewrite Hl. cbn [fst snd heap pool trace].
  rewrite list_lookup_insert_eq by (by eapply lookup_lt_Some).
  split_and!; try done.
  intros l' Hne. by apply list_lookup_insert_ne.
Qed.

(** * The theorems at work on concrete worlds *)

Lemma Get_pool_exhausted_run :
  let e := mkGetEnv 1700000002000000000 (Dialed 12%nat) 1700000002000000000 in
  Get e lent_out_world =
    (mkWorld (with_assessTime 1700000002 (pool lent_out_world))
       (heap lent_out_world) (trace lent_out_world),
     Ret (None, Some (ErrPoolEmpty 3 2 1 2))).
Proof.
  apply (Get_pool_exhausted
           (mkGetEnv 1700000002000000000 (Dialed 12%nat) 1700000002000000000)
           lent_out_world).
  - unfold int32_ok. simpl. lia.
  - reflexivity.
  - reflexivity.
  - vm_compute. reflexivity.
Defined.

Lemma Put_after_Close_run :
  ∃ w' c',
    Put quiet (Some 0%nat)
      (mkPutEnv 1700000003000000000 1700000003000000000) shut_world
    = (w', Ret None)
    ∧ heap w' !! 0%nat = Some c' ∧ conn_closed c' = true
    ∧ trace w' = trace shut_world ++ [EvSocketClose 10%nat]
    ∧ clients (pool w') = clients (pool shut_world)
    ∧ idle (pool w') = idle (pool shut_world).
Proof.
  apply (Put_after_Close quiet 0%nat
           (mkConn "127.0.0.1:9898" false 10%nat 1700000000100000000)
           (mkPutEnv 1700000003000000000 1700000003000000000) shut_world).
  - reflexivity.
  - reflexivity.
Defined.


Lemma int32_fields_full_world : int32_fields (pool full_world).
Proof.
  unfold int32_fields, int32_ok. vm_compute.
  repeat split; first [reflexivity|discriminate].
Defined.


(** Three seconds after its last use, with [IdleTimeout = 5], on the full
    pool. *)
Lemma put_evicts_over_capacity_run :
  ∃ w',
    put quiet (Some 2%nat) false
      (mkPutEnv 1700000003000000000 1700000003500000000) full_world
    = (w', Ret None)
    ∧ heap w' !! 2%nat
      = Some (mkConn "127.0.0.1:9898" true 12%nat 1700000003500000000)
    ∧ trace w' = trace full_world ++ [EvSocketClose 12%nat]
    ∧ clients (pool w') = clients (pool full_world)
    ∧ idle (pool w') = 2
    ∧ idle (pool w') < 3.
Proof.
  apply (put_evicts_over_capacity quiet 2%nat
           (mkConn "127.0.0.1:9898" false 12%nat 1700000000100000000)
           false (mkPutEnv 1700000003000000000 1700000003500000000)
           full_world).
  - simpl. lia.
  - reflexivity.
  - reflexivity.
  - exact int32_fields_full_world.
  - vm_compute. reflexivity.
  - unfold int64_ok. vm_compute. split; first [reflexivity|discriminate].
  - vm_compute. reflexivity.
  - vm_compute. discriminate.
  - vm_compute. reflexivity.
Defined.

(** In the second of its last use, on the full pool. *)
Lemma put_same_second_skips_eviction_run :
  let e := mkPutEnv 1700000000800000000 1700000000900000000 in
  let c := mkConn "127.0.0.1:9898" false 12%nat 1700000000100000000 in
  put quiet (Some 2%nat) false e full_world =
    try_recover (put_select quiet (Some 2%nat) 0)
      (put_recover quiet (Some 2%nat)) (put_counted 2 c false e full_world).
Proof.
  apply (put_same_second_skips_eviction quiet 2%nat
           (mkConn "127.0.0.1:9898" false 12%nat 1700000000100000000)
           false (mkPutEnv 1700000000800000000 1700000000900000000)
           full_world).
  - simpl. lia.
  - reflexivity.
  - reflexivity.
  - vm_compute. reflexivity.
  - vm_compute. discriminate.
Defined.

Lemma Get_after_Put_run :
  let ep := mkPutEnv 1700000001000000000 1700000001000000000 in
  let eg := mkGetEnv 1700000002000000000 (Dialed 11%nat) 1700000002000000000 in
  let w' := fst (Put quiet (Some 0%nat) ep single_world) in
  ∃ w'' p,
    Get eg w' = (w'', Ret (p, None))
    ∧ head (chan_buf (clients (pool single_world)) ++ [Some 0%nat]) = Some p
    ∧ (chan_buf (clients (pool single_world)) = [] → p = Some 0%nat)
    ∧ trace w'' = trace w'
    ∧ heap w'' = heap w'.
Proof.
  apply (Get_after_Put quiet 0%nat
           (mkConn "127.0.0.1:9898" false 10%nat 1700000000500000000)
           (mkPutEnv 1700000001000000000 1700000001000000000)
           (mkGetEnv 1700000002000000000 (Dialed 11%nat) 1700000002000000000)
           single_world).
  - simpl. lia.
  - reflexivity.
  - reflexivity.
  - vm_compute. reflexivity.
  - eexists. split; [vm_compute; reflexivity|reflexivity].
Defined.

Lemma ThriftConn_Close_idempotent_run :
  let w1 := fst (ThriftConn_Close quiet (Some 0%nat) single_world) in
  ThriftConn_Close quiet (Some 0%nat) w1 = (w1, Ret None)
  ∧ (false = true →
     ThriftConn_Close quiet (Some 0%nat) single_world
     = (single_world, Ret None))
  ∧ (∀ ks, ∃ c', heap (calls quiet ks w1) !! 0%nat = Some c'
                 ∧ conn_closed c' = true).
Proof.
  apply (ThriftConn_Close_idempotent quiet 0%nat
           (mkConn "127.0.0.1:9898" false 10%nat 1700000000500000000)
           single_world).
  reflexivity.
Defined.

Lemma ThriftPool_Close_keeps_idle_run :
  ∃ w',
    ThriftPool_Close quiet full_world = (w', Ret tt)
    ∧ closed (pool w') = 1
    ∧ chan_closed (clients (pool w')) = true
    ∧ chan_buf (clients (pool w')) = []
    ∧ (∀ l : nat, Some l ∈ chan_buf (clients (pool full_world)) →
         ∃ c', heap w' !! l = Some c' ∧ conn_closed c' = true)
    ∧ idle (pool w') = idle (pool full_world).
Proof.
  apply (proj2 (ThriftPool_Close_keeps_idle quiet full_world)).
  - reflexivity.
  - reflexivity.
  - simpl. repeat constructor; eexists; reflexivity.
Defined.

(** ** The further properties at work *)

Lemma fresh_world_queue_counted : queue_counted fresh_world.
Proof.
  unfold queue_counted. vm_compute.
  repeat split; first [reflexivity|discriminate].
Defined.

Lemma fresh_world_queue_valid : queue_valid fresh_world.
Proof. apply Forall_nil_2. Defined.

Lemma fresh_world_endpoints_ok : endpoints_ok fresh_world.
Proof. intros l c Hl. discriminate Hl. Defined.

Lemma full_world_queue_counted : queue_counted full_world.
Proof.
  unfold queue_counted. vm_compute.
  repeat split; first [reflexivity|discriminate].
Defined.

Lemma full_world_queue_valid : queue_valid full_world.
Proof. repeat constructor; eexists; reflexivity. Defined.

Lemma leased_world_queue_counted : queue_counted leased_world.
Proof.
  unfold queue_counted. vm_compute.
  repeat split; first [reflexivity|discriminate].
Defined.

(** The first release of the run of thrift_pool_test.go. *)
Lemma put_enqueues_open_conn_run :
  let e := mkPutEnv 1700000001000000000 1700000001000000000 in
  let w' := fst (put quiet (Some 0%nat) false e single_world) in
  chan_buf (clients (pool w'))
    = chan_buf (clients (pool single_world)) ++ [Some 0%nat]
  ∧ (∃ c, deref w' (Some 0%nat) = Some c ∧ conn_closed c = false)
  ∧ snd (put quiet (Some 0%nat) false e single_world) = Ret None.
Proof.
  apply (put_enqueues_open_conn quiet (Some 0%nat) false
           (mkPutEnv 1700000001000000000 1700000001000000000) single_world).
  vm_compute. discriminate.
Defined.

(** The server is down. *)
Lemma Get_dial_failure_run :
  let err := ErrTransport "connection refused" in
  let e := mkGetEnv 1700000000000000000 (NewSocketFails err)
             1700000000000000000 in
  ∃ w',
    Get e fresh_world = (w', Ret (None, Some err))
    ∧ heap w' = heap fresh_world
    ∧ clients (pool w') = clients (pool fresh_world)
    ∧ idle (pool w') = idle (pool fresh_world)
    ∧ used (pool w') = add32 (used (pool fresh_world)) 1.
Proof.
  apply (Get_dial_failure
           (mkGetEnv 1700000000000000000
              (NewSocketFails (ErrTransport "connection refused"))
              1700000000000000000)
           fresh_world (ErrTransport "connection refused")).
  - reflexivity.
  - reflexivity.
  - vm_compute. discriminate.
  - left. reflexivity.
Defined.

(** The first [Get] on the fresh pool. *)
Lemma Get_dials_connection_run :
  let e := mkGetEnv 1700000000000000000 (Dialed 10%nat) 1700000000500000000 in
  ∃ w' (l : nat),
    Get e fresh_world = (w', Ret (Some l, None))
    ∧ heap fresh_world !! l = None
    ∧ heap w' !! l
      = Some (mkConn (Endpoint (pool fresh_world)) false 10%nat (get_born e))
    ∧ (∀ (l' : nat) c,
         heap fresh_world !! l' = Some c → heap w' !! l' = Some c)
    ∧ trace w'
      = trace fresh_world ++ [dial_event (pool fresh_world); EvOpen 10%nat]
    ∧ clients (pool w') = clients (pool fresh_world)
    ∧ idle (pool w') = idle (pool fresh_world)
    ∧ used (pool w') = add32 (used (pool fresh_world)) 1.
Proof.
  apply (Get_dials_connection
           (mkGetEnv 1700000000000000000 (Dialed 10%nat) 1700000000500000000)
           fresh_world 10%nat).
  - reflexivity.
  - reflexivity.
  - vm_compute. discriminate.
  - reflexivity.
Defined.

(** A [Get], the [Put] of its connection, a [SetDialTimeout 0] and a second
    dial, on the fresh pool. *)
Lemma calls_dial_with_timeout_run :
  let ks :=
    [CallGet false
       (mkGetEnv 1700000000000000000 (Dialed 10%nat) 1700000000500000000);
     CallSetDialTimeout 0;
     CallGet false
       (mkGetEnv 1700000001000000000 (Dialed 11%nat) 1700000001500000000);
     CallPut (Some 0%nat) false
       (mkPutEnv 1700000002000000000 1700000002000000000)] in
  1 ≤ DialTimeout (pool (calls quiet ks fresh_world))
  ∧ List.filter is_untimed_dial (trace (calls quiet ks fresh_world))
    = List.filter is_untimed_dial (trace fresh_world).
Proof.
  apply (calls_dial_with_timeout quiet
           [CallGet false
              (mkGetEnv 1700000000000000000 (Dialed 10%nat)
                 1700000000500000000);
            CallSetDialTimeout 0;
            CallGet false
              (mkGetEnv 1700000001000000000 (Dialed 11%nat)
                 1700000001500000000);
            CallPut (Some 0%nat) false
              (mkPutEnv 1700000002000000000 1700000002000000000)]
           fresh_world).
  simpl. lia.
Defined.

(** A [Get] and the [Put] of its connection on the fresh pool, then the
    [Get] that takes the connection from the free-queue. *)
Lemma Get_returns_pool_endpoint_run :
  let ks :=
    [CallGet false
       (mkGetEnv 1700000000000000000 (Dialed 10%nat) 1700000000500000000);
     CallPut (Some 0%nat) false
       (mkPutEnv 1700000001000000000 1700000001000000000)] in
  let e := mkGetEnv 1700000002000000000 (Dialed 11%nat) 1700000002000000000 in
  let w1 := calls quiet ks fresh_world in
  endpoints_ok w1 ∧ queue_valid w1
  ∧ (None : option error) = None
  ∧ ∃ c, heap (fst (Get e w1)) !! 0%nat = Some c
         ∧ conn_Endpoint c = Endpoint (pool fresh_world).
Proof.
  apply (Get_returns_pool_endpoint quiet
           [CallGet false
              (mkGetEnv 1700000000000000000 (Dialed 10%nat)
                 1700000000500000000);
            CallPut (Some 0%nat) false
              (mkPutEnv 1700000001000000000 1700000001000000000)]
           (mkGetEnv 1700000002000000000 (Dialed 11%nat) 1700000002000000000)
           fresh_world).
  - exact fresh_world_endpoints_ok.
  - exact fresh_world_queue_valid.
  - vm_compute. reflexivity.
Defined.

Lemma Get_Put_restores_used_run :
  let eg := mkGetEnv 1700000000000000000 (Dialed 10%nat) 1700000000500000000 in
  let ep := mkPutEnv 1700000001000000000 1700000001000000000 in
  let w' := fst (Get eg fresh_world) in
  (∃ r, snd (Put quiet (Some 0%nat) ep w') = Ret r)
  ∧ used (pool (fst (Put quiet (Some 0%nat) ep w'))) = used (pool fresh_world).
Proof.
  apply (Get_Put_restores_used quiet
           (mkGetEnv 1700000000000000000 (Dialed 10%nat) 1700000000500000000)
           (mkPutEnv 1700000001000000000 1700000001000000000)
           fresh_world _ 0%nat None).
  - unfold int32_ok. vm_compute. split; first [reflexivity|discriminate].
  - exact fresh_world_queue_valid.
  - vm_compute. reflexivity.
Defined.

(** Two dials, two releases and a round of the Reclaimer on the fresh
    pool. *)
Lemma calls_keep_idle_count_run :
  let ks :=
    [CallGet false
       (mkGetEnv 1700000000000000000 (Dialed 10%nat) 1700000000500000000);
     CallGet false
       (mkGetEnv 1700000000000000000 (Dialed 11%nat) 1700000000600000000);
     CallPut (Some 0%nat) false
       (mkPutEnv 1700000001000000000 1700000001000000000);
     CallPut (Some 1%nat) false
       (mkPutEnv 1700000001000000000 1700000001000000000);
     CallReclaim
       (λ _, (mkGetEnv 1700000020000000000 (Dialed 12%nat)
                1700000020000000000,
              mkPutEnv 1700000020000000000 1700000020000000000))] in
  let w2 := calls quiet ks fresh_world in
  chan_closed (clients (pool w2)) = false
  ∧ idle (pool w2) = Z.of_nat (length (chan_buf (clients (pool w2))))
  ∧ Z.of_nat (length (chan_buf (clients (pool w2))))
    ≤ chan_cap (clients (pool w2))
  ∧ chan_cap (clients (pool w2)) < 2 ^ 31.
Proof.
  apply (calls_keep_idle_count quiet
           [CallGet false
              (mkGetEnv 1700000000000000000 (Dialed 10%nat)
                 1700000000500000000);
            CallGet false
              (mkGetEnv 1700000000000000000 (Dialed 11%nat)
                 1700000000600000000);
            CallPut (Some 0%nat) false
              (mkPutEnv 1700000001000000000 1700000001000000000);
            CallPut (Some 1%nat) false
              (mkPutEnv 1700000001000000000 1700000001000000000);
            CallReclaim
              (λ _, (mkGetEnv 1700000020000000000 (Dialed 12%nat)
                       1700000020000000000,
                     mkPutEnv 1700000020000000000 1700000020000000000))]
           fresh_world).
  - repeat (constructor; [discriminate|]). constructor.
  - exact fresh_world_queue_counted.
Defined.

(** A late [Put] and a [Get] on the closed pool. *)
Lemma Get_after_Close_returns_nil_run :
  let ks :=
    [CallPut (Some 0%nat) false
       (mkPutEnv 1700000003000000000 1700000003000000000)] in
  let e := mkGetEnv 1700000004000000000 (Dialed 12%nat) 1700000004000000000 in
  let w1 := calls quiet ks shut_world in
  shut w1
  ∧ snd (Get e w1) = Ret (None, None)
  ∧ trace (fst (Get e w1)) = trace w1
  ∧ heap (fst (Get e w1)) = heap w1.
Proof.
  apply (Get_after_Close_returns_nil quiet
           [CallPut (Some 0%nat) false
              (mkPutEnv 1700000003000000000 1700000003000000000)]
           (mkGetEnv 1700000004000000000 (Dialed 12%nat) 1700000004000000000)
           shut_world).
  repeat split.
Defined.

(** The second release of the run of thrift_pool_test.go, two seconds after
    the connection was last used. *)
Lemma Put_later_second_never_fails_run :
  snd (Put quiet (Some 1%nat)
         (mkPutEnv 1700000002000000000 1700000002500000000) leased_world)
  = Ret None.
Proof.
  apply (Put_later_second_never_fails quiet 1%nat
           (mkConn "127.0.0.1:9898" false 11%nat 1700000000500000000)
           (mkPutEnv 1700000002000000000 1700000002500000000) leased_world).
  - exact leased_world_queue_counted.
  - reflexivity.
  - vm_compute. discriminate.
  - vm_compute. reflexivity.
  - reflexivity.
  - vm_compute. reflexivity.
Defined.

(** A round on the full pool, thirty seconds after the queued connections
    were last used. *)
Lemma releaseIdleConn_round_keeps_used_run :
  let env := λ _ : nat,
    (mkGetEnv 1700000020000000000 (Dialed 13%nat) 1700000020000000000,
     mkPutEnv 1700000020000000000 1700000020000000000) in
  let w2 := fst (releaseIdleConn_round quiet env full_world) in
  (∃ b, snd (releaseIdleConn_round quiet env full_world) = Ret b)
  ∧ used (pool w2) = used (pool full_world)
  ∧ queue_counted w2 ∧ queue_valid w2.
Proof.
  apply (releaseIdleConn_round_keeps_used quiet
           (λ _ : nat,
              (mkGetEnv 1700000020000000000 (Dialed 13%nat)
                 1700000020000000000,
               mkPutEnv 1700000020000000000 1700000020000000000))
           full_world).
  - exact full_world_queue_counted.
  - exact full_world_queue_valid.
  - unfold int32_ok. vm_compute. split; first [reflexivity|discriminate].
Defined.

(** The [Close] of part_000 on the closed pool and on the full pool. *)
Lemma Part000_Close_never_returns_run :
  Part000.Close quiet 5 shut_world = Some (shut_world, Ret tt)
  ∧ Part000.Close quiet 1000 full_world = None.
Proof.
  split.
  - apply (proj1 (Part000_Close_never_returns quiet shut_world)).
    vm_compute. discriminate.
  - apply (proj2 (Part000_Close_never_returns quiet full_world)).
    + reflexivity.
    + reflexivity.
    + repeat constructor; eexists; reflexivity.
Defined.

Lemma NewThriftPool_InitSize_le_MaxSize_run :
  InitSize fresh_pool ≤ MaxSize fresh_pool
  ∧ 2 * 1 ≤ MaxSize fresh_pool ∧ 10 ≤ MaxSize fresh_pool.
Proof.
  apply (NewThriftPool_InitSize_le_MaxSize "127.0.0.1:9898" 3 5 10 1
           fresh_pool).
  - lia.
  - vm_compute. split; first [reflexivity|discriminate].
  - reflexivity.
Defined.

Lemma NewThriftPool_establishes_invariants_run :
  let w := mkWorld fresh_pool [] [] in
  queue_counted w ∧ queue_valid w ∧ endpoints_ok w
  ∧ chan_cap (clients fresh_pool) = MaxSize fresh_pool
  ∧ 1 ≤ DialTimeout fresh_pool ∧ 1 ≤ IdleTimeout fresh_pool
  ∧ int32_ok (used fresh_pool).
Proof.
  apply (NewThriftPool_establishes_invariants "127.0.0.1:9898" 3 5 10 1
           fresh_pool).
  - unfold int32_ok. vm_compute. split; first [reflexivity|discriminate].
  - reflexivity.
Defined.

(** The request of the example client whose call has failed. *)
Lemma Close_then_Put_discards_run :
  let c := mkConn "127.0.0.1:9898" false 10%nat 1700000000500000000 in
  let e := mkPutEnv 1700000001000000000 1700000001000000000 in
  let w1 := fst (ThriftConn_Close quiet (Some 0%nat) single_world) in
  let w2 := fst (Put quiet (Some 0%nat) e w1) in
  snd (Put quiet (Some 0%nat) e w1) = Ret None
  ∧ heap w2 = <[0%nat := with_conn_closed true c]> (heap single_world)
  ∧ trace w2 = trace single_world ++ [EvSocketClose (client c)]
  ∧ clients (pool w2) = clients (pool single_world)
  ∧ idle (pool w2) = idle (pool single_world)
  ∧ used (pool w2) = add32 (used (pool single_world)) (-1).
Proof.
  apply (Close_then_Put_discards quiet quiet 0%nat
           (mkConn "127.0.0.1:9898" false 10%nat 1700000000500000000)
           (mkPutEnv 1700000001000000000 1700000001000000000) single_world).
  - reflexivity.
  - reflexivity.
Defined.

(** The third connection released on the full pool in the second of its
    last use. *)
Lemma Put_full_queue_fails_run :
  let c := mkConn "127.0.0.1:9898" false 12%nat 1700000000100000000 in
  let e := mkPutEnv 1700000000800000000 1700000000900000000 in
  let w' := fst (Put quiet (Some 2%nat) e full_world) in
  snd (Put quiet (Some 2%nat) e full_world)
    = Ret (Some (ErrPutFailed (add32 (used (pool full_world)) (-1))
                   (InitSize (pool full_world))
                   (add32 (add32 (idle (pool full_world)) 1) (-1))))
  ∧ heap w' !! 2%nat
    = Some (with_conn_closed true (with_usedTime (put_clock e) c))
  ∧ trace w' = trace full_world ++ [EvSocketClose (client c)]
  ∧ clients (pool w') = clients (pool full_world)
  ∧ idle (pool w') = add32 (add32 (idle (pool full_world)) 1) (-1)
  ∧ used (pool w') = add32 (used (pool full_world)) (-1).
Proof.
  apply (Put_full_queue_fails quiet 2%nat
           (mkConn "127.0.0.1:9898" false 12%nat 1700000000100000000)
           (mkPutEnv 1700000000800000000 1700000000900000000) full_world).
  - vm_compute. discriminate.
  - reflexivity.
  - reflexivity.
  - reflexivity.
  - vm_compute. discriminate.
  - vm_compute. reflexivity.
Defined.

Lemma releaseIdleConn_round_refreshes_access_time_run :
  let env := λ i : nat,
    (mkGetEnv 1700000020000000000 (Dialed 13%nat) 1700000020000000000,
     mkPutEnv (1700000020000000000 + Z.of_nat i * 1000000000)
       1700000020000000000) in
  let w2 := fst (releaseIdleConn_round quiet env full_world) in
  snd (GetAssessTime w2)
  = Ret (Unix (put_now
                 (snd (env (Z.to_nat (idle (pool full_world)) - 1)%nat)))).
Proof.
  apply (releaseIdleConn_round_refreshes_access_time quiet
           (λ i : nat,
              (mkGetEnv 1700000020000000000 (Dialed 13%nat)
                 1700000020000000000,
               mkPutEnv (1700000020000000000 + Z.of_nat i * 1000000000)
                 1700000020000000000))
           full_world).
  - exact full_world_queue_counted.
  - exact full_world_queue_valid.
  - vm_compute. discriminate.
  - vm_compute. reflexivity.
  - vm_compute. reflexivity.
  - vm_compute. reflexivity.
Defined.

Lemma UpdateUsedTime_GetUsedTime_run :
  let c := mkConn "127.0.0.1:9898" false 10%nat 1700000000500000000 in
  let now := 1700000007250000000 in
  let w' := fst (UpdateUsedTime (Some 0%nat) now single_world) in
  snd (UpdateUsedTime (Some 0%nat) now single_world) = Ret (Unix now)
  ∧ GetUsedTime (Some 0%nat) w' = (w', Ret (Unix now))
  ∧ GetClient (Some 0%nat) w' = (w', Ret (client c))
  ∧ ThriftConn_GetEndpoint (Some 0%nat) w' = (w', Ret (conn_Endpoint c))
  ∧ IsClose (Some 0%nat) w' = (w', Ret (conn_closed c))
  ∧ (∀ l' : nat, l' ≠ 0%nat → heap w' !! l' = heap single_world !! l')
  ∧ pool w' = pool single_world ∧ trace w' = trace single_world.
Proof.
  apply (UpdateUsedTime_GetUsedTime 0%nat
           (mkConn "127.0.0.1:9898" false 10%nat 1700000000500000000)
           1700000007250000000 single_world).
  reflexivity.
Defined.
